(** * dmlc::any — a type-erased value container (include/dmlc/any.h)

    A shallow embedding of [class any] and of its helper templates
    [TypeOnStack], [TypeOnHeap] and [TypeInfo].  Container objects live in a
    store indexed by their address, so that [this] and [other] may alias;
    payloads placed with [new] live in a separate heap.  Every payload
    constructor and destructor call and every allocation and release is
    appended to a trace. *)

From stdpp Require Import gmap strings list fin_maps.

Local Open Scope N_scope.

(** ** C++ types and their identity *)

(** A decayed, copy-constructible object type, described by the traits that
    any.h consults: [sizeof], [alignof], [std::is_pod].
    [std::is_trivially_destructible] is carried along because the
    documentation speaks about it. *)
Record CxxType := {
  type_name : string;
  size_of : N;
  align_of : N;
  is_pod : bool;
  is_trivially_destructible : bool
}.

#[global] Instance CxxType_eq_dec : EqDecision CxxType.
Proof. solve_decision. Defined.

(** The language rule relating the two traits: a POD class is a trivial
    class, and a trivial class has a trivial destructor. *)
Definition cxx_type_ok (T : CxxType) : Prop :=
  is_pod T = true → is_trivially_destructible T = true.

(** [std::type_info] objects; there is one per type, and [&typeid(T)] is
    compared by address. *)
Inductive type_info :=
  | typeid_void
  | typeid (T : CxxType).

#[global] Instance type_info_eq_dec : EqDecision type_info.
Proof. solve_decision. Defined.

Definition name (ti : type_info) : string :=
  match ti with
  | typeid_void => "void"
  | typeid T => type_name T
  end.

(** ** Some types of an LP64 machine *)

Definition Int : CxxType :=
  {| type_name := "int"; size_of := 4; align_of := 4;
     is_pod := true; is_trivially_destructible := true |}.

Definition String : CxxType :=
  {| type_name := "std::string"; size_of := 32; align_of := 8;
     is_pod := false; is_trivially_destructible := false |}.

(** [struct Big { long a[4]; };] — plain data, one word too large for the
    buffer. *)
Definition Big : CxxType :=
  {| type_name := "Big"; size_of := 32; align_of := 8;
     is_pod := true; is_trivially_destructible := true |}.

(** [struct Counter { int n; Counter() : n(0) {} };] — the user-provided
    default constructor makes it non-trivial, hence not POD, while its
    destructor is trivial. *)
Definition Counter : CxxType :=
  {| type_name := "Counter"; size_of := 4; align_of := 4;
     is_pod := false; is_trivially_destructible := true |}.

(** ** The descriptor [any::Type] *)

(** Function pointers are the addresses of template instantiations. *)
Inductive destroy_fn :=
  | fp_TypeOnStack_destroy (T : CxxType)
  | fp_TypeOnHeap_destroy (T : CxxType).

Inductive create_fn :=
  | fp_TypeOnStack_create_from_data (T : CxxType)
  | fp_TypeOnHeap_create_from_data (T : CxxType).

#[global] Instance destroy_fn_eq_dec : EqDecision destroy_fn.
Proof. solve_decision. Defined.

#[global] Instance create_fn_eq_dec : EqDecision create_fn.
Proof. solve_decision. Defined.

(** [struct Type]; a null [destroy] is [None]. *)
Record Type_ := {
  destroy : option destroy_fn;
  create_from_data : create_fn;
  ptype_info : type_info
}.

#[global] Instance Type_eq_dec : EqDecision Type_.
Proof. solve_decision. Defined.

Abbreviation addr := positive.

(** What unwinds the stack or ends the program. *)
Inductive Exn :=
  | BadAlloc                  (* thrown by operator new *)
  | Fatal (msg : string)      (* a failed CHECK *)
  | Terminate                 (* std::terminate, an exception leaving noexcept *)
  | Undefined (what : string) (* behaviour the language leaves undefined *).

Section Any.

(** [sizeof(void* )], the machine word. *)
Variable sizeof_ptr : N.

(** The values payload objects can take. *)
Context {Val : Type}.

(** ** Memory *)

(** A live payload object: its dynamic type and its value. *)
Record Obj := { obj_type : CxxType; obj_val : Val }.

(** [union Data]: either nothing was ever written, or an object was
    placement-constructed in [stack], or [pheap] was assigned. *)
Inductive Data :=
  | Indeterminate
  | stack (o : Obj)
  | pheap (p : addr).

(** The two data members of [class any]; a null [type_] is [None]. *)
Record any := { type_ : option Type_; data_ : Data }.

Inductive Event :=
  | EvConstruct (T : CxxType) (v : Val)  (* a constructor of T ran *)
  | EvDestruct (T : CxxType) (v : Val)   (* the destructor of T ran *)
  | EvNew (p : addr)                     (* operator new returned p *)
  | EvDelete (p : addr)                  (* operator delete released p *).

Record World := {
  anys : gmap addr any;     (* the container objects, by address *)
  heap : gmap addr Obj;     (* the blocks handed out by operator new *)
  free_store : N;           (* bytes operator new can still hand out *)
  trace : list Event
}.

(** A reference to a payload: into the buffer of the container at [this], or
    to a heap block. *)
Inductive Ref :=
  | RefStack (this : addr)
  | RefHeap (p : addr).

(** ** The monad of member functions *)

Inductive Outcome (A : Type) :=
  | Ret (a : A) (w : World)
  | Raise (e : Exn) (w : World).
Arguments Ret {A} a w.
Arguments Raise {A} e w.

Definition M (A : Type) : Type := World → Outcome A.

#[export] Instance M_ret : MRet M := λ A a w, Ret a w.
#[export] Instance M_bind : MBind M := λ A B f m w,
  match m w with
  | Ret a w' => f a w'
  | Raise e w' => Raise e w'
  end.

Definition raise {A} (e : Exn) : M A := λ w, Raise e w.

(** A [noexcept] function: an exception that would leave it calls
    [std::terminate]. *)
Definition noexcept {A} (m : M A) : M A := λ w,
  match m w with
  | Ret a w' => Ret a w'
  | Raise (Undefined s) w' => Raise (Undefined s) w'
  | Raise _ w' => Raise Terminate w'
  end.

Definition log (e : Event) : M unit := λ w,
  Ret tt {| anys := anys w; heap := heap w; free_store := free_store w;
            trace := trace w ++ [e] |}.

Definition load (this : addr) : M any := λ w,
  match anys w !! this with
  | Some a => Ret a w
  | None => Raise (Undefined "no container at this address") w
  end.

Definition store (this : addr) (a : any) : M unit := λ w,
  Ret tt {| anys := <[this := a]> (anys w); heap := heap w;
            free_store := free_store w; trace := trace w |}.

Definition get_type_ (this : addr) : M (option Type_) :=
  a ← load this; mret (type_ a).

Definition get_data_ (this : addr) : M Data :=
  a ← load this; mret (data_ a).

Definition set_type_ (this : addr) (ty : option Type_) : M unit :=
  a ← load this; store this {| type_ := ty; data_ := data_ a |}.

Definition set_data_ (this : addr) (d : Data) : M unit :=
  a ← load this; store this {| type_ := type_ a; data_ := d |}.

(** [new T(v)]: throws [std::bad_alloc] when the free store cannot supply
    [sizeof(T)] bytes; otherwise a block that is not live is handed out and
    a [T] is constructed in it. *)
Definition operator_new (T : CxxType) (v : Val) : M addr := λ w,
  if size_of T <=? free_store w then
    let p := fresh (dom (heap w)) in
    Ret p {| anys := anys w;
             heap := <[p := {| obj_type := T; obj_val := v |}]> (heap w);
             free_store := free_store w - size_of T;
             trace := trace w ++ [EvNew p; EvConstruct T v] |}
  else Raise BadAlloc w.

(** [delete static_cast<T*>(p)]: runs the destructor, then releases the
    block.  Deleting what is not a live [T] is undefined. *)
Definition operator_delete (T : CxxType) (p : addr) : M unit := λ w,
  match heap w !! p with
  | Some o =>
      if decide (obj_type o = T) then
        Ret tt {| anys := anys w; heap := delete p (heap w);
                  free_store := free_store w + size_of T;
                  trace := trace w ++ [EvDestruct T (obj_val o); EvDelete p] |}
      else Raise (Undefined "delete through a pointer of another type") w
  | None => Raise (Undefined "delete of a block that is not live") w
  end.

(** [new (&(data->stack)) T(v)] *)
Definition placement_new (data : addr) (T : CxxType) (v : Val) : M unit :=
  log (EvConstruct T v);;
  set_data_ data (stack {| obj_type := T; obj_val := v |}).

(** Reading [*r] as a [T]. *)
Definition deref (T : CxxType) (r : Ref) : M Val :=
  match r with
  | RefStack this =>
      d ← get_data_ this;
      match d with
      | stack o =>
          if decide (obj_type o = T) then mret (obj_val o)
          else raise (Undefined "no object of this type in the buffer")
      | _ => raise (Undefined "no object of this type in the buffer")
      end
  | RefHeap p => λ w,
      match heap w !! p with
      | Some o =>
          if decide (obj_type o = T) then Ret (obj_val o) w
          else Raise (Undefined "no object of this type in the block") w
      | None => Raise (Undefined "dangling pointer") w
      end
  end.

(** ** Storage strategy *)

Definition kStack : N := sizeof_ptr * 3.
Definition kAlign : N := sizeof_ptr.

Definition data_on_stack (T : CxxType) : bool :=
  (align_of T <=? kAlign) && (size_of T <=? kStack).

(** [class any::TypeOnHeap<T>]; a [Data*] is the address of the container
    whose [data_] it points to. *)
Definition TypeOnHeap_get_ptr (T : CxxType) (data : addr) : M Ref :=
  d ← get_data_ data;
  match d with
  | pheap p => mret (RefHeap p)
  | _ => raise (Undefined "pheap is not the active member")
  end.

Definition TypeOnHeap_create_from_data (T : CxxType) (dst data : addr) : M unit :=
  r ← TypeOnHeap_get_ptr T data;
  v ← deref T r;
  p ← operator_new T v;
  set_data_ dst (pheap p).

Definition TypeOnHeap_destroy (T : CxxType) (data : addr) : M unit :=
  d ← get_data_ data;
  match d with
  | pheap p => operator_delete T p
  | _ => raise (Undefined "pheap is not the active member")
  end.

(** [class any::TypeOnStack<T>] *)
Definition TypeOnStack_get_ptr (T : CxxType) (data : addr) : M Ref :=
  mret (RefStack data).

Definition TypeOnStack_create_from_data (T : CxxType) (dst data : addr) : M unit :=
  r ← TypeOnStack_get_ptr T data;
  v ← deref T r;
  placement_new dst T v.

Definition TypeOnStack_destroy (T : CxxType) (data : addr) : M unit :=
  d ← get_data_ data;
  match d with
  | stack o =>
      if decide (obj_type o = T) then log (EvDestruct T (obj_val o))
      else raise (Undefined "no object of this type in the buffer")
  | _ => raise (Undefined "no object of this type in the buffer")
  end.

(** [class any::TypeInfo<T>] inherits the accessors of one of the two. *)
Definition TypeInfo_get_ptr (T : CxxType) (data : addr) : M Ref :=
  if data_on_stack T then TypeOnStack_get_ptr T data
  else TypeOnHeap_get_ptr T data.

Definition TypeInfo_destroy (T : CxxType) : destroy_fn :=
  if data_on_stack T then fp_TypeOnStack_destroy T else fp_TypeOnHeap_destroy T.

Definition TypeInfo_create_from_data (T : CxxType) : create_fn :=
  if data_on_stack T then fp_TypeOnStack_create_from_data T
  else fp_TypeOnHeap_create_from_data T.

(** The constructor [TypeInfo()] fills the singleton that [get_type]
    returns. *)
Definition TypeInfo_get_type (T : CxxType) : Type_ :=
  {| destroy := if is_pod T then None else Some (TypeInfo_destroy T);
     create_from_data := TypeInfo_create_from_data T;
     ptype_info := typeid T |}.

(** Calls through the function pointers of a descriptor. *)
Definition call_destroy (f : destroy_fn) (data : addr) : M unit :=
  match f with
  | fp_TypeOnStack_destroy T => TypeOnStack_destroy T data
  | fp_TypeOnHeap_destroy T => TypeOnHeap_destroy T data
  end.

Definition call_create_from_data (f : create_fn) (dst data : addr) : M unit :=
  match f with
  | fp_TypeOnStack_create_from_data T => TypeOnStack_create_from_data T dst data
  | fp_TypeOnHeap_create_from_data T => TypeOnHeap_create_from_data T dst data
  end.

(** ** Member functions of [any] *)

(** Modelled from the spec: the CHECK macro of logging.h, which is not among
    the sources; a failed check is the opaque "fail fatally with message"
    capability, carrying the streamed text. *)
Definition CHECK (cond : bool) (msg : string) : M unit :=
  if cond then mret tt else raise (Fatal msg).

(** The default member initialiser [type_{nullptr}]; [data_] is left
    indeterminate. *)
Definition member_init (this : addr) : M unit :=
  store this {| type_ := None; data_ := Indeterminate |}.

(** [any::any()] *)
Definition any_default (this : addr) : M unit :=
  member_init this.

(** [any::construct(any&&)] *)
Definition construct_move (this other : addr) : M unit :=
  noexcept (
    ty ← get_type_ other; set_type_ this ty;;
    d ← get_data_ other; set_data_ this d;;
    set_type_ other None).

(** [any::construct(const any&)] *)
Definition construct_copy (this other : addr) : M unit :=
  noexcept (
    ty ← get_type_ other; set_type_ this ty;;
    ty ← get_type_ this;
    match ty with
    | Some t => call_create_from_data (create_from_data t) this other
    | None => mret tt
    end).

(** What [any::any(T&&)] and [any::operator=(T&&)] are handed: a container
    (then [std::decay<T>::type] is [any]) or a value [v] of a payload type.
    A container reaches the templates as a non-const lvalue ([T = any&]) or
    as a const rvalue ([T = const any]); a non-const rvalue and a const
    lvalue select the non-template [any(any&&)] and [any(const any&)], and
    their assignment operators, instead. *)
Inductive Forwarded :=
  | fwd_any (other : addr) (rvalue : bool)
  | fwd_value (T : CxxType) (v : Val).

(** The else branch of [any::any(T&&)]: [DT] is the payload type [T]. *)
Definition any_from_value (this : addr) (T : CxxType) (v : Val) : M unit :=
  member_init this;;
  set_type_ this (Some (TypeInfo_get_type T));;
  if data_on_stack T then placement_new this T v
  else p ← operator_new T v; set_data_ this (pheap p).

(** [any::any(T&&)].  In [construct(std::forward<T>(other))] a non-const
    lvalue and a const rvalue both bind to [construct(const any&)], the
    latter because [construct(any&&)] does not accept a const object. *)
Definition any_from (this : addr) (other : Forwarded) : M unit :=
  match other with
  | fwd_any o _ => member_init this;; construct_copy this o
  | fwd_value T v => any_from_value this T v
  end.

(** [any::any(any&&)] *)
Definition any_move (this other : addr) : M unit :=
  member_init this;; construct_move this other.

(** [any::any(const any&)] *)
Definition any_copy (this other : addr) : M unit :=
  member_init this;; construct_copy this other.

(** [any::swap] *)
Definition swap (this other : addr) : M unit :=
  noexcept (
    t1 ← get_type_ this; t2 ← get_type_ other;
    set_type_ this t2;; set_type_ other t1;;
    d1 ← get_data_ this; d2 ← get_data_ other;
    set_data_ this d2;; set_data_ other d1).

(** [any::clear] *)
Definition clear (this : addr) : M unit :=
  ty ← get_type_ this;
  match ty with
  | Some t =>
      match destroy t with
      | Some f => call_destroy f this
      | None => mret tt
      end;;
      set_type_ this None
  | None => mret tt
  end.

(** The storage of a destroyed container goes away with its scope. *)
Definition end_of_scope (this : addr) : M unit := λ w,
  Ret tt {| anys := delete this (anys w); heap := heap w;
            free_store := free_store w; trace := trace w |}.

(** [any::~any], run when a container leaves its scope. *)
Definition any_dtor (this : addr) : M unit :=
  clear this;; end_of_scope this.

(** [any::empty] *)
Definition empty (this : addr) : M bool :=
  noexcept (ty ← get_type_ this; mret (bool_decide (ty = None))).

(** [any::type] *)
Definition type (this : addr) : M type_info :=
  ty ← get_type_ this;
  match ty with
  | Some t => mret (ptype_info t)
  | None => mret typeid_void
  end.

(** [any::check_type<T>] *)
Definition check_type (T : CxxType) (this : addr) : M unit :=
  ty ← get_type_ this;
  CHECK (bool_decide (ty ≠ None)) "The any container is empty";;
  match ty with
  | Some t =>
      CHECK (bool_decide (ptype_info t = typeid T))
            ("The stored type mismatch" +:+ " stored=" +:+ name (ptype_info t)
             +:+ " requested=" +:+ name (typeid T))
  | None => raise (Undefined "null descriptor dereferenced")
  end.

(** [any::get<T>], the non-const overload.  The const overload has the same
    text, but it calls [check_type<T>], which is not a const member, on a
    const object: it is ill-formed when instantiated and has no behaviour
    to embed. *)
Definition get (T : CxxType) (this : addr) : M Ref :=
  check_type T this;;
  TypeInfo_get_ptr T this.

(** A temporary lives at an address where no container is. *)
Definition temporary : M addr := λ w, Ret (fresh (dom (anys w))) w.

(** [any::operator=(any&&)] *)
Definition assign_move (this other : addr) : M addr :=
  noexcept (
    tmp ← temporary;
    any_move tmp other;; swap tmp this;; any_dtor tmp;;
    mret this).

(** [any::operator=(const any&)] *)
Definition assign_copy (this other : addr) : M addr :=
  noexcept (
    tmp ← temporary;
    any_copy tmp other;; swap tmp this;; any_dtor tmp;;
    mret this).

(** [any::operator=(T&&)] *)
Definition assign_from (this : addr) (other : Forwarded) : M addr :=
  noexcept (
    tmp ← temporary;
    any_from tmp other;; swap tmp this;; any_dtor tmp;;
    mret this).

(** [any::operator=(T&&)] at a value of a payload type. *)
Definition assign_value (this : addr) (T : CxxType) (v : Val) : M addr :=
  assign_from this (fwd_value T v).

(** ** The representation invariant and observers *)

Implicit Types (w u : World) (a b : any) (T S : CxxType) (v : Val).
Implicit Types (this other A B : addr).

(** The container value [a] holds the value [v] of type [T]: its descriptor
    is the one of [T] and its storage is encoded by the strategy of [T]. *)
Definition holds w a T v : Prop :=
  type_ a = Some (TypeInfo_get_type T) ∧
  if data_on_stack T then data_ a = stack {| obj_type := T; obj_val := v |}
  else ∃ p, data_ a = pheap p ∧
            heap w !! p = Some {| obj_type := T; obj_val := v |}.

(** A container is empty or holds some value. *)
Definition wf_any w a : Prop :=
  type_ a = None ∨ ∃ T v, holds w a T v.

(** [get<T>()] followed by a read through the reference it returns. *)
Definition read T this : M Val :=
  r ← get T this; deref T r.

(** How many payload destructors a trace has run. *)
Fixpoint destructions (l : list Event) : nat :=
  match l with
  | [] => 0
  | EvDestruct _ _ :: l' => S (destructions l')
  | _ :: l' => destructions l'
  end.

(** How many blocks a trace has released. *)
Fixpoint releases (l : list Event) : nat :=
  match l with
  | [] => 0
  | EvDelete _ :: l' => S (releases l')
  | _ :: l' => releases l'
  end.

(** ** Ownership and the invariant of the store *)

(** The non-empty container value [a] refers to the heap block [p]. *)
Definition owns a (p : addr) : Prop :=
  type_ a ≠ None ∧ data_ a = pheap p.

(** Every container of the store is empty or holds a value, and no heap
    block is referred to by two non-empty containers. *)
Definition wf_world w : Prop :=
  (∀ x a, anys w !! x = Some a → wf_any w a) ∧
  (∀ x y a b p, anys w !! x = Some a → anys w !! y = Some b →
                owns a p → owns b p → x = y).

(** The world an outcome leaves behind. *)
Definition world_of {X} (o : Outcome X) : World :=
  match o with
  | Ret _ w => w
  | Raise _ w => w
  end.

(** Where a reference obtained from a container points once the raw storage
    of that container has been relocated to the container at [to]: a
    reference into the buffer follows the buffer, a heap pointer stays. *)
Definition relocated (to : addr) (r : Ref) : Ref :=
  match r with
  | RefStack _ => RefStack to
  | RefHeap p => RefHeap p
  end.

(** How many payload constructors a trace has run. *)
Fixpoint constructions (l : list Event) : nat :=
  match l with
  | [] => 0
  | EvConstruct _ _ :: l' => S (constructions l')
  | _ :: l' => constructions l'
  end.

(** * Properties *)

(** ** Running the primitives *)

Lemma any_eta a : {| type_ := type_ a; data_ := data_ a |} = a.
Proof. by destruct a. Qed.

Ltac unfold_prims :=
  unfold get_type_, get_data_, set_type_, set_data_, load, store, log, raise,
    CHECK, mbind, mret, M_bind, M_ret in *.

Ltac lookup_step :=
  match goal with
  | H : anys ?w !! ?x = Some _ |- context [anys ?w !! ?x] => rewrite H
  | |- context [<[?x := _]> _ !! ?x] => rewrite lookup_insert_eq
  | |- context [delete ?x _ !! ?x] => rewrite lookup_delete_eq
  | H : ?x ≠ ?y |- context [<[?x := _]> _ !! ?y] =>
      rewrite (lookup_insert_ne _ x y) by exact H
  | H : ?y ≠ ?x |- context [<[?x := _]> _ !! ?y] =>
      rewrite (lookup_insert_ne _ x y) by (apply not_eq_sym; exact H)
  end.

Ltac run :=
  unfold_prims; cbn; repeat (lookup_step; cbn); rewrite ?insert_insert_eq.

(** Two stores are equal when they agree at every address. *)
Ltac store_ext :=
  apply map_eq; intros ?;
  repeat (rewrite lookup_insert || rewrite lookup_delete);
  repeat case_decide; subst; rewrite ?any_eta; try done; try congruence.

Lemma bind_Ret {X Y} (m : M X) (f : X → M Y) w x w' :
  m w = Ret x w' → (m ≫= f) w = f x w'.
Proof. intros H. unfold mbind, M_bind. by rewrite H. Qed.

Lemma bind_Raise {X Y} (m : M X) (f : X → M Y) w e w' :
  m w = Raise e w' → (m ≫= f) w = Raise e w'.
Proof. intros H. unfold mbind, M_bind. by rewrite H. Qed.

Lemma bind_Ret_inv {X Y} (m : M X) (f : X → M Y) w y w' :
  (m ≫= f) w = Ret y w' → ∃ x w1, m w = Ret x w1 ∧ f x w1 = Ret y w'.
Proof.
  unfold mbind, M_bind. destruct (m w) as [x w1|e w1]; [eauto | discriminate].
Qed.

Lemma noexcept_Ret {X} (m : M X) w x w' :
  m w = Ret x w' → noexcept m w = Ret x w'.
Proof. intros H. unfold noexcept. by rewrite H. Qed.

Lemma noexcept_Ret_inv {X} (m : M X) w x w' :
  noexcept m w = Ret x w' → m w = Ret x w'.
Proof.
  unfold noexcept. destruct (m w) as [y w1|[| | |] w1]; congruence.
Qed.

Lemma World_eta w :
  {| anys := anys w; heap := heap w; free_store := free_store w;
     trace := trace w |} = w.
Proof. by destruct w. Qed.

Lemma World_eq m h f t w :
  m = anys w → h = heap w → f = free_store w → t = trace w →
  {| anys := m; heap := h; free_store := f; trace := t |} = w.
Proof. intros -> -> -> ->. apply World_eta. Qed.

(** ** Descriptors *)

Lemma typeid_inj T S : typeid T = typeid S → T = S.
Proof. congruence. Qed.

Lemma get_type_inj T S : TypeInfo_get_type T = TypeInfo_get_type S → T = S.
Proof. unfold TypeInfo_get_type. congruence. Qed.

Lemma data_on_stack_spec T :
  data_on_stack T = true ↔ size_of T ≤ 3 * sizeof_ptr ∧ align_of T ≤ sizeof_ptr.
Proof.
  unfold data_on_stack, kAlign, kStack.
  rewrite andb_true_iff, !N.leb_le. lia.
Qed.

Lemma holds_unique w a T S v v' : holds w a T v → holds w a S v' → T = S ∧ v = v'.
Proof.
  intros [Ht Hd] [Hs Hd']. rewrite Ht in Hs.
  assert (T = S) as <- by (apply get_type_inj; congruence).
  split; [done|].
  destruct (data_on_stack T).
  - congruence.
  - destruct Hd as (p & Hp & Hh), Hd' as (p' & Hp' & Hh'). congruence.
Qed.

Lemma fresh_block_free w : heap w !! fresh (dom (heap w)) = None.
Proof. apply not_elem_of_dom, is_fresh. Qed.

(** ** Construction from a value *)

Lemma any_from_value_stack w this T v :
  data_on_stack T = true →
  any_from_value this T v w =
    Ret tt {| anys := <[this := {| type_ := Some (TypeInfo_get_type T);
                                   data_ := stack {| obj_type := T; obj_val := v |} |}]>
                        (anys w);
              heap := heap w; free_store := free_store w;
              trace := trace w ++ [EvConstruct T v] |}.
Proof.
  intros Hs. unfold any_from_value, member_init, placement_new. rewrite Hs.
  by run.
Qed.

Lemma any_from_value_heap w this T v :
  data_on_stack T = false → size_of T ≤ free_store w →
  any_from_value this T v w =
    Ret tt {| anys := <[this := {| type_ := Some (TypeInfo_get_type T);
                                   data_ := pheap (fresh (dom (heap w))) |}]>
                        (anys w);
              heap := <[fresh (dom (heap w)) := {| obj_type := T; obj_val := v |}]>
                        (heap w);
              free_store := free_store w - size_of T;
              trace := trace w ++ [EvNew (fresh (dom (heap w))); EvConstruct T v] |}.
Proof.
  intros Hs Hm. apply N.leb_le in Hm.
  unfold any_from_value, member_init, operator_new. rewrite Hs.
  run. rewrite Hm. by run.
Qed.

Lemma any_from_value_bad_alloc w this T v :
  data_on_stack T = false → free_store w < size_of T →
  any_from_value this T v w =
    Raise BadAlloc
      {| anys := <[this := {| type_ := Some (TypeInfo_get_type T);
                              data_ := Indeterminate |}]> (anys w);
         heap := heap w; free_store := free_store w; trace := trace w |}.
Proof.
  intros Hs Hm. apply N.leb_gt in Hm.
  unfold any_from_value, member_init, operator_new. rewrite Hs.
  run. rewrite Hm. by run.
Qed.

(** ** Reading a container *)

Lemma empty_eq w this a :
  anys w !! this = Some a →
  empty this w = Ret (bool_decide (type_ a = None)) w.
Proof. intros Ha. unfold empty, noexcept. unfold_prims. by rewrite Ha. Qed.

Lemma type_eq w this a :
  anys w !! this = Some a →
  type this w =
    Ret (match type_ a with Some t => ptype_info t | None => typeid_void end) w.
Proof.
  intros Ha. unfold type. unfold_prims. rewrite Ha. by destruct (type_ a).
Qed.

Lemma get_holds w this a T v :
  anys w !! this = Some a → holds w a T v →
  ∃ r, get T this w = Ret r w ∧ deref T r w = Ret v w.
Proof.
  intros Ha [Ht Hd]. unfold get, check_type, TypeInfo_get_ptr, TypeOnStack_get_ptr,
    TypeOnHeap_get_ptr, deref.
  unfold_prims. rewrite Ha, Ht. cbn.
  rewrite bool_decide_true by done. cbn.
  destruct (data_on_stack T).
  - eexists. split; [done|]. cbn. rewrite Ha, Hd. cbn. by rewrite decide_True.
  - destruct Hd as (p & Hp & Hh). rewrite Ha, Hp. eexists. split; [done|].
    cbn. rewrite Hh. cbn. by rewrite decide_True.
Qed.

Lemma get_empty w this a T :
  anys w !! this = Some a → type_ a = None →
  get T this w = Raise (Fatal "The any container is empty") w.
Proof.
  intros Ha Ht. unfold get, check_type. unfold_prims. by rewrite Ha, Ht.
Qed.

Lemma get_mismatch w this a t T :
  anys w !! this = Some a → type_ a = Some t → ptype_info t ≠ typeid T →
  get T this w =
    Raise (Fatal ("The stored type mismatch stored=" +:+ name (ptype_info t)
                  +:+ " requested=" +:+ type_name T)) w.
Proof.
  intros Ha Ht Hne. unfold get, check_type. unfold_prims. rewrite Ha, Ht. cbn.
  by rewrite bool_decide_false.
Qed.

(** ** clear *)

Lemma clear_empty w this a :
  anys w !! this = Some a → type_ a = None → clear this w = Ret tt w.
Proof. intros Ha Ht. unfold clear. unfold_prims. by rewrite Ha, Ht. Qed.

Lemma clear_pod w this a T v :
  anys w !! this = Some a → holds w a T v → is_pod T = true →
  clear this w =
    Ret tt {| anys := <[this := {| type_ := None; data_ := data_ a |}]> (anys w);
              heap := heap w; free_store := free_store w; trace := trace w |}.
Proof.
  intros Ha [Ht _] Hp. unfold clear. unfold_prims. rewrite Ha, Ht. cbn.
  rewrite Hp. cbn. by rewrite Ha.
Qed.

Lemma clear_stack w this a T v :
  anys w !! this = Some a → holds w a T v →
  is_pod T = false → data_on_stack T = true →
  clear this w =
    Ret tt {| anys := <[this := {| type_ := None; data_ := data_ a |}]> (anys w);
              heap := heap w; free_store := free_store w;
              trace := trace w ++ [EvDestruct T v] |}.
Proof.
  intros Ha [Ht Hd] Hp Hs. rewrite Hs in Hd.
  unfold clear, TypeInfo_get_type, TypeInfo_destroy in *.
  unfold_prims. rewrite Ha, Ht. cbn. rewrite Hp, Hs. cbn.
  unfold TypeOnStack_destroy. unfold_prims. rewrite Ha, Hd. cbn.
  rewrite decide_True by done. cbn. by rewrite Ha, Hd.
Qed.

Lemma clear_heap w this a T v p :
  anys w !! this = Some a → holds w a T v →
  is_pod T = false → data_on_stack T = false → data_ a = pheap p →
  clear this w =
    Ret tt {| anys := <[this := {| type_ := None; data_ := data_ a |}]> (anys w);
              heap := delete p (heap w);
              free_store := free_store w + size_of T;
              trace := trace w ++ [EvDestruct T v; EvDelete p] |}.
Proof.
  intros Ha [Ht Hd] Hp Hs Hdp. rewrite Hs in Hd.
  destruct Hd as (p' & Hp' & Hh). assert (p' = p) as -> by congruence.
  unfold clear, TypeInfo_get_type, TypeInfo_destroy in *.
  unfold_prims. rewrite Ha, Ht. cbn. rewrite Hp, Hs. cbn.
  unfold TypeOnHeap_destroy, operator_delete. unfold_prims. rewrite Ha, Hdp.
  rewrite Hh. cbn. rewrite decide_True by done. cbn. by rewrite Ha, Hdp.
Qed.

Lemma destructions_app (l l' : list Event) :
  destructions (l ++ l') = (destructions l + destructions l')%nat.
Proof. induction l as [|[] l IH]; cbn; lia. Qed.

Lemma releases_app (l l' : list Event) :
  releases (l ++ l') = (releases l + releases l')%nat.
Proof. induction l as [|[] l IH]; cbn; lia. Qed.

(** What a single [clear] of a well-formed container does to the world. *)
Lemma clear_wf w this a :
  anys w !! this = Some a → wf_any w a →
  ∃ w1, clear this w = Ret tt w1 ∧
        anys w1 !! this = Some {| type_ := None; data_ := data_ a |} ∧
        (∀ x, x ≠ this → anys w1 !! x = anys w !! x) ∧
        (∀ q o, heap w !! q = Some o → data_ a ≠ pheap q →
                heap w1 !! q = Some o) ∧
        (destructions (trace w1) ≤ destructions (trace w) + 1)%nat ∧
        (releases (trace w1) ≤ releases (trace w) + 1)%nat.
Proof.
  intros Ha [Ht | (T & v & Hh)].
  - exists w. rewrite (clear_empty _ _ _ Ha Ht). rewrite Ha.
    split; [done|]. split; [destruct a; cbn in *; by subst|].
    repeat split; auto with lia.
  - destruct (is_pod T) eqn:Hp; [| destruct (data_on_stack T) eqn:Hs].
    + eexists. split; [by eapply clear_pod|]. cbn.
      rewrite lookup_insert_eq. split; [done|].
      split; [intros x Hx; by rewrite lookup_insert_ne|].
      repeat split; auto with lia.
    + eexists. split; [by eapply clear_stack|]. cbn.
      rewrite lookup_insert_eq, destructions_app, releases_app. cbn.
      split; [done|].
      split; [intros x Hx; by rewrite lookup_insert_ne|].
      repeat split; auto with lia.
    + pose proof Hh as [_ Hd]. rewrite Hs in Hd. destruct Hd as (p & Hdp & _).
      eexists. split; [by eapply clear_heap|]. cbn.
      rewrite lookup_insert_eq, destructions_app, releases_app. cbn.
      split; [done|].
      split; [intros x Hx; by rewrite lookup_insert_ne|].
      split; [|lia].
      intros q o Hq Hne. rewrite lookup_delete_ne; [done|]. congruence.
Qed.

(** [holds] looks at the heap only through the block the container owns. *)
Lemma holds_heap w u a T v :
  holds w a T v →
  (∀ p o, data_ a = pheap p → heap w !! p = Some o → heap u !! p = Some o) →
  holds u a T v.
Proof.
  intros [Ht Hd] Hsub. split; [done|].
  destruct (data_on_stack T); [done|].
  destruct Hd as (p & Hp & Hh). exists p. eauto.
Qed.

(** ** Move construction and swap *)

Lemma any_move_eq w A B a :
  A ≠ B → anys w !! A = Some a →
  any_move B A w =
    Ret tt {| anys := <[A := {| type_ := None; data_ := data_ a |}]>
                        (<[B := a]> (anys w));
              heap := heap w; free_store := free_store w; trace := trace w |}.
Proof.
  intros Hne Ha. unfold any_move, member_init, construct_move, noexcept.
  run. by destruct a.
Qed.

Lemma any_move_leaves_source_empty w A B a :
  A ≠ B → anys w !! A = Some a →
  ∃ w', any_move B A w = Ret tt w' ∧
        anys w' !! A = Some {| type_ := None; data_ := data_ a |}.
Proof.
  intros Hne Ha. eexists. split; [by apply any_move_eq|]. apply lookup_insert_eq.
Qed.

Lemma swap_eq w A B a b :
  anys w !! A = Some a → anys w !! B = Some b →
  swap A B w =
    Ret tt {| anys := <[B := a]> (<[A := b]> (anys w));
              heap := heap w; free_store := free_store w; trace := trace w |}.
Proof.
  intros Ha Hb. unfold swap, noexcept.
  destruct (decide (A = B)) as [->|Hne].
  - assert (a = b) as -> by congruence. clear Ha.
    run. by destruct b.
  - run. rewrite !any_eta. do 2 f_equal. store_ext.
Qed.

(** What [get<T>] and a read through its result yield depends only on the
    container value and on the heap. *)
Lemma read_frame T w u x y a v :
  anys w !! x = Some a → anys u !! y = Some a → heap w = heap u →
  read T x w = Ret v w → read T y u = Ret v u.
Proof.
  intros Hx Hy Hh. unfold read, get, check_type, TypeInfo_get_ptr,
    TypeOnStack_get_ptr, TypeOnHeap_get_ptr.
  unfold_prims. rewrite Hx, Hy. cbn.
  destruct (type_ a) as [t|]; cbn; [|done].
  case_bool_decide; cbn; [|done].
  destruct (data_on_stack T); cbn.
  - unfold_prims. rewrite Hx, Hy. cbn.
    destruct (data_ a) as [|o|p]; cbn; try done.
    destruct (decide (obj_type o = T)); cbn; congruence.
  - rewrite Hx, Hy. cbn. destruct (data_ a) as [|o|p]; cbn; try done.
    rewrite <- Hh. destruct (heap w !! p) as [o|]; [|done].
    destruct (decide (obj_type o = T)); congruence.
Qed.

(** What [clear] does to the heap, the free store and the trace depends only
    on the container value, not on where the container lives. *)
Lemma clear_frame w u x y a w1 :
  anys w !! x = Some a → anys u !! y = Some a →
  heap w = heap u → free_store w = free_store u → trace w = trace u →
  clear x w = Ret tt w1 →
  clear y u =
    Ret tt {| anys := <[y := {| type_ := None; data_ := data_ a |}]> (anys u);
              heap := heap w1; free_store := free_store w1;
              trace := trace w1 |}.
Proof.
  intros Hx Hy Hh Hf Ht. unfold clear. unfold_prims. rewrite Hx, Hy. cbn.
  destruct a as [[t|] d]; cbn.
  - destruct (destroy t) as [[S|S]|]; cbn.
    + unfold TypeOnStack_destroy. unfold_prims. rewrite Hx, Hy. cbn.
      destruct d as [|o|p]; cbn; try done.
      destruct (decide (obj_type o = S)); cbn; [|done].
      rewrite Hx, Hy. cbn. intros [= <-]. cbn. by rewrite Hh, Hf, Ht.
    + unfold TypeOnHeap_destroy, operator_delete. unfold_prims.
      rewrite Hx, Hy. cbn.
      destruct d as [|o|p]; cbn; try done. rewrite <- Hh.
      destruct (heap w !! p) as [o|]; cbn; [|done].
      destruct (decide (obj_type o = S)); cbn; [|done].
      rewrite Hx, Hy. cbn. intros [= <-]. cbn. by rewrite Hf, Ht.
    + rewrite Hx, Hy. cbn. intros [= <-]. cbn. by rewrite Hh, Hf, Ht.
  - intros [= <-]. rewrite (insert_id _ _ _ Hy). rewrite Hh, Hf, Ht.
    by destruct u.
Qed.

(** The common tail of the three assignment operators: the temporary, which
    holds the new content, is swapped with the target and then destroyed.
    The target ends up with the new content, the temporary is gone, and the
    heap, the free store and the trace are those one [clear] of the old
    content leaves. *)
Lemma install_temporary w tmp this new old wd :
  tmp ≠ this → anys w !! tmp = Some new → anys w !! this = Some old →
  clear this w = Ret tt wd →
  (swap tmp this;; any_dtor tmp;; mret this) w =
    Ret this {| anys := <[this := new]> (delete tmp (anys w));
                heap := heap wd; free_store := free_store wd;
                trace := trace wd |}.
Proof.
  intros Hne Htmp Hthis Hclear.
  rewrite (bind_Ret _ _ _ _ _ (swap_eq _ _ _ _ _ Htmp Hthis)).
  unfold any_dtor. cbv beta.
  match goal with |- _ ?x = _ => set (w2 := x) end.
  assert (anys w2 !! tmp = Some old) as Htmp2.
  { cbn. rewrite lookup_insert_ne by done. apply lookup_insert_eq. }
  pose proof (clear_frame w w2 this tmp old wd Hthis Htmp2 eq_refl eq_refl
                eq_refl Hclear) as Hc.
  unfold mbind, M_bind. rewrite Hc. unfold end_of_scope. cbn.
  do 2 f_equal. store_ext.
Qed.

(** ** Copy construction *)

Lemma any_copy_empty w this other b :
  anys w !! other = Some b → this ≠ other → type_ b = None →
  any_copy this other w =
    Ret tt {| anys := <[this := {| type_ := None; data_ := Indeterminate |}]>
                        (anys w);
              heap := heap w; free_store := free_store w; trace := trace w |}.
Proof.
  intros Hb Hne Ht. unfold any_copy, member_init, construct_copy, noexcept.
  run. rewrite Ht. by run.
Qed.

Lemma any_copy_stack w this other b T v :
  anys w !! other = Some b → this ≠ other → holds w b T v →
  data_on_stack T = true →
  any_copy this other w =
    Ret tt {| anys := <[this := {| type_ := Some (TypeInfo_get_type T);
                                   data_ := stack {| obj_type := T; obj_val := v |} |}]>
                        (anys w);
              heap := heap w; free_store := free_store w;
              trace := trace w ++ [EvConstruct T v] |}.
Proof.
  intros Hb Hne [Ht Hd] Hs. rewrite Hs in Hd.
  unfold any_copy, member_init, construct_copy, noexcept.
  run. rewrite Ht. run.
  unfold TypeInfo_create_from_data. rewrite Hs. cbn.
  unfold TypeOnStack_create_from_data, TypeOnStack_get_ptr, placement_new,
    deref.
  run. rewrite Hd. cbn. rewrite decide_True by done. by run.
Qed.

Lemma any_copy_heap w this other b T v :
  anys w !! other = Some b → this ≠ other → holds w b T v →
  data_on_stack T = false → size_of T ≤ free_store w →
  any_copy this other w =
    Ret tt {| anys := <[this := {| type_ := Some (TypeInfo_get_type T);
                                   data_ := pheap (fresh (dom (heap w))) |}]>
                        (anys w);
              heap := <[fresh (dom (heap w)) := {| obj_type := T; obj_val := v |}]>
                        (heap w);
              free_store := free_store w - size_of T;
              trace := trace w ++ [EvNew (fresh (dom (heap w))); EvConstruct T v] |}.
Proof.
  intros Hb Hne [Ht Hd] Hs Hm. rewrite Hs in Hd. destruct Hd as (p & Hp & Hh).
  apply N.leb_le in Hm.
  unfold any_copy, member_init, construct_copy, noexcept.
  run. rewrite Ht. run.
  unfold TypeInfo_create_from_data. rewrite Hs. cbn.
  unfold TypeOnHeap_create_from_data, TypeOnHeap_get_ptr, operator_new, deref.
  run. rewrite Hp. cbn. rewrite Hh. cbn. rewrite decide_True by done. cbn.
  rewrite Hm. by run.
Qed.

Lemma any_copy_bad_alloc w this other b T v :
  anys w !! other = Some b → this ≠ other → holds w b T v →
  data_on_stack T = false → free_store w < size_of T →
  any_copy this other w =
    Raise Terminate
      {| anys := <[this := {| type_ := Some (TypeInfo_get_type T);
                              data_ := Indeterminate |}]> (anys w);
         heap := heap w; free_store := free_store w; trace := trace w |}.
Proof.
  intros Hb Hne [Ht Hd] Hs Hm. rewrite Hs in Hd. destruct Hd as (p & Hp & Hh).
  apply N.leb_gt in Hm.
  unfold any_copy, member_init, construct_copy, noexcept.
  run. rewrite Ht. run.
  unfold TypeInfo_create_from_data. rewrite Hs. cbn.
  unfold TypeOnHeap_create_from_data, TypeOnHeap_get_ptr, operator_new, deref.
  run. rewrite Hp. cbn. rewrite Hh. cbn. rewrite decide_True by done. cbn.
  by rewrite Hm.
Qed.

(** ** Assignment *)

Lemma temporary_fresh w : anys w !! fresh (dom (anys w)) = None.
Proof. apply not_elem_of_dom, is_fresh. Qed.

Lemma temporary_ne w this a :
  anys w !! this = Some a → fresh (dom (anys w)) ≠ this.
Proof. intros Ha Heq. rewrite <- Heq, temporary_fresh in Ha. done. Qed.

(** The shape shared by the three assignment operators, for a constructor
    [ctor] of the temporary that returns normally. *)
Lemma assignment_eq (ctor : addr → M unit) w this new old wc wd :
  ctor (fresh (dom (anys w))) w = Ret tt wc →
  anys wc !! fresh (dom (anys w)) = Some new →
  anys wc !! this = Some old →
  fresh (dom (anys w)) ≠ this →
  clear this wc = Ret tt wd →
  noexcept (tmp ← temporary;
            ctor tmp;; swap tmp this;; any_dtor tmp;; mret this) w =
    Ret this {| anys := <[this := new]> (delete (fresh (dom (anys w))) (anys wc));
                heap := heap wd; free_store := free_store wd;
                trace := trace wd |}.
Proof.
  intros Hctor Hnew Hold Hne Hclear. apply noexcept_Ret.
  unfold temporary. unfold mbind at 1, M_bind at 1.
  rewrite (bind_Ret _ _ _ _ _ Hctor).
  by apply install_temporary with (old := old).
Qed.

(** When the constructor of the temporary throws, the exception meets the
    [noexcept] of the operator before the target was touched. *)
Lemma assignment_throws (ctor : addr → M unit) w this e wc :
  ctor (fresh (dom (anys w))) w = Raise e wc →
  (∀ s, e ≠ Undefined s) →
  noexcept (tmp ← temporary;
            ctor tmp;; swap tmp this;; any_dtor tmp;; mret this) w =
    Raise Terminate wc.
Proof.
  intros Hctor He. unfold noexcept, temporary. unfold mbind at 1, M_bind at 1.
  rewrite (bind_Raise _ _ _ _ _ Hctor).
  destruct e; try done. by destruct (He what).
Qed.

Lemma any_from_value_Ret_inv w this T v wc :
  any_from_value this T v w = Ret tt wc →
  ∃ new, anys wc = <[this := new]> (anys w) ∧ holds wc new T v.
Proof.
  destruct (data_on_stack T) eqn:Hs.
  - rewrite any_from_value_stack by done. intros [= <-].
    eexists. split; [done|]. split; [done|]. by rewrite Hs.
  - destruct (N.le_gt_cases (size_of T) (free_store w)) as [Hm|Hm].
    + rewrite any_from_value_heap by done. intros [= <-].
      eexists. split; [done|]. split; [done|]. rewrite Hs.
      eexists. split; [done|]. apply lookup_insert_eq.
    + by rewrite any_from_value_bad_alloc.
Qed.

(** [operator=(T&&)]: the new content is constructed, the old content is
    cleared once, and the target holds the new content. *)
Lemma assign_value_eq w this old new T v wc wd :
  anys w !! this = Some old →
  any_from_value (fresh (dom (anys w))) T v w = Ret tt wc →
  anys wc !! fresh (dom (anys w)) = Some new →
  clear this wc = Ret tt wd →
  assign_value this T v w =
    Ret this {| anys := <[this := new]> (anys w); heap := heap wd;
                free_store := free_store wd; trace := trace wd |}.
Proof.
  intros Hold Hctor Hnew Hclear.
  destruct (any_from_value_Ret_inv _ _ _ _ _ Hctor) as (new' & Hanys & _).
  pose proof (temporary_ne _ _ _ Hold) as Hne.
  pose proof (temporary_fresh w) as Hfresh.
  rewrite Hanys, lookup_insert_eq in Hnew. injection Hnew as ->.
  unfold assign_value, assign_from, any_from.
  rewrite (assignment_eq (λ tmp, any_from_value tmp T v) w this new old wc wd);
    try done.
  - do 2 f_equal. rewrite Hanys. store_ext.
  - rewrite Hanys. apply lookup_insert_eq.
  - rewrite Hanys. by rewrite lookup_insert_ne.
Qed.

(** [operator=(T&&)] when [operator new] throws: [std::terminate] is called
    and the target, the heap and the trace are as they were. *)
Lemma assign_value_throws w this old T v :
  anys w !! this = Some old →
  data_on_stack T = false → free_store w < size_of T →
  ∃ w', assign_value this T v w = Raise Terminate w' ∧
        anys w' !! this = Some old ∧ heap w' = heap w ∧
        free_store w' = free_store w ∧ trace w' = trace w.
Proof.
  intros Hold Hs Hm. pose proof (temporary_ne _ _ _ Hold) as Hne.
  eexists. split.
  - unfold assign_value, assign_from, any_from.
    apply (assignment_throws (λ tmp, any_from_value tmp T v) _ _ BadAlloc);
      [|done].
    by apply any_from_value_bad_alloc.
  - cbn. by rewrite lookup_insert_ne.
Qed.

(** [operator=(const any&)] when the copy of the payload cannot be
    allocated. *)
Lemma assign_copy_throws w this other old b T v :
  anys w !! this = Some old → anys w !! other = Some b → holds w b T v →
  data_on_stack T = false → free_store w < size_of T →
  ∃ w', assign_copy this other w = Raise Terminate w' ∧
        anys w' !! this = Some old ∧ heap w' = heap w ∧
        free_store w' = free_store w ∧ trace w' = trace w.
Proof.
  intros Hold Hb Hh Hs Hm.
  pose proof (temporary_ne _ _ _ Hold) as Hne.
  pose proof (temporary_ne _ _ _ Hb) as Hne'.
  eexists. split.
  - unfold assign_copy.
    apply (assignment_throws (λ tmp, any_copy tmp other) _ _ Terminate);
      [|done].
    by eapply any_copy_bad_alloc.
  - cbn. by rewrite lookup_insert_ne.
Qed.

(** [operator=(any&&)]: the target receives the container value of the
    source, the source is left empty, and the old content of the target is
    cleared once. *)
Lemma assign_move_eq w this other old b wd :
  this ≠ other → anys w !! this = Some old → anys w !! other = Some b →
  clear this w = Ret tt wd →
  assign_move this other w =
    Ret this {| anys := <[this := b]>
                          (<[other := {| type_ := None; data_ := data_ b |}]>
                             (anys w));
                heap := heap wd; free_store := free_store wd;
                trace := trace wd |}.
Proof.
  intros Hne Hold Hb Hclear.
  pose proof (temporary_ne _ _ _ Hold) as Hne1.
  pose proof (temporary_ne _ _ _ Hb) as Hne2.
  pose proof (temporary_fresh w) as Hfresh.
  set (tmp := fresh (dom (anys w))) in *.
  pose proof (any_move_eq w other tmp b (not_eq_sym Hne2) Hb) as Hmove.
  match type of Hmove with _ = Ret _ ?x => set (wc := x) in * end.
  assert (anys wc !! this = Some old) as Hold'.
  { cbn. by rewrite !lookup_insert_ne. }
  assert (anys wc !! tmp = Some b) as Hnew.
  { cbn. rewrite lookup_insert_ne by done. apply lookup_insert_eq. }
  pose proof (clear_frame w wc this this old wd Hold Hold' eq_refl eq_refl
                eq_refl Hclear) as Hclear'.
  unfold assign_move.
  rewrite (assignment_eq (λ tmp, any_move tmp other) w this b old wc _
             Hmove Hnew Hold' Hne1 Hclear').
  cbn. do 2 f_equal. store_ext.
Qed.

(** [a = std::move(a)] changes nothing at all. *)
Lemma self_assign_move w this a :
  anys w !! this = Some a → assign_move this this w = Ret this w.
Proof.
  intros Ha.
  pose proof (temporary_ne _ _ _ Ha) as Hne.
  pose proof (temporary_fresh w) as Hfresh.
  set (tmp := fresh (dom (anys w))) in *.
  pose proof (any_move_eq w this tmp a (not_eq_sym Hne) Ha) as Hmove.
  match type of Hmove with _ = Ret _ ?x => set (wc := x) in * end.
  assert (anys wc !! this = Some {| type_ := None; data_ := data_ a |}) as Hold
    by apply lookup_insert_eq.
  assert (anys wc !! tmp = Some a) as Hnew.
  { cbn. rewrite lookup_insert_ne by done. apply lookup_insert_eq. }
  unfold assign_move.
  rewrite (assignment_eq (λ tmp, any_move tmp this) w this a _ wc wc
             Hmove Hnew Hold Hne (clear_empty _ _ _ Hold eq_refl)).
  cbn. f_equal. apply World_eq; [|done..]. fold tmp. store_ext.
Qed.

(** [a = a], copying: an empty container stays empty, and a container that
    holds [v] holds an equal value afterwards. *)
Lemma self_assign_copy w this a :
  anys w !! this = Some a →
  (type_ a = None →
     ∃ w', assign_copy this this w = Ret this w' ∧
           empty this w' = Ret true w' ∧
           heap w' = heap w ∧ trace w' = trace w) ∧
  (∀ T v, holds w a T v →
     (data_on_stack T = false → size_of T ≤ free_store w) →
     ∃ w' a', assign_copy this this w = Ret this w' ∧
              anys w' !! this = Some a' ∧ holds w' a' T v).
Proof.
  intros Ha.
  pose proof (temporary_ne _ _ _ Ha) as Hne.
  pose proof (temporary_fresh w) as Hfresh.
  set (tmp := fresh (dom (anys w))) in *.
  split.
  - intros Ht.
    pose proof (any_copy_empty w tmp this a Ha Hne Ht) as Hcopy.
    match type of Hcopy with _ = Ret _ ?x => set (wc := x) in * end.
    assert (anys wc !! this = Some a) as Hold by (cbn; by rewrite lookup_insert_ne).
    assert (anys wc !! tmp = Some {| type_ := None; data_ := Indeterminate |})
      as Hnew by apply lookup_insert_eq.
    eexists. split.
    + unfold assign_copy.
      apply (assignment_eq (λ tmp, any_copy tmp this) w this _ a wc wc
               Hcopy Hnew Hold Hne (clear_empty _ _ _ Hold Ht)).
    + split; [|by subst wc].
      rewrite (empty_eq _ _ {| type_ := None; data_ := Indeterminate |});
        [done | apply lookup_insert_eq].
  - intros T v Hh Hmem. destruct (data_on_stack T) eqn:Hs.
    + pose proof (any_copy_stack w tmp this a T v Ha Hne Hh Hs) as Hcopy.
      match type of Hcopy with _ = Ret _ ?x => set (wc := x) in * end.
      assert (anys wc !! this = Some a) as Hold
        by (cbn; by rewrite lookup_insert_ne).
      assert (wf_any wc a) as Hwf by (right; by exists T, v).
      destruct (clear_wf _ _ _ Hold Hwf) as (wd & Hclear & _).
      do 2 eexists. split.
      * unfold assign_copy.
        apply (assignment_eq (λ tmp, any_copy tmp this) w this _ a wc wd
                 Hcopy (lookup_insert_eq _ _ _) Hold Hne Hclear).
      * cbn. split; [apply lookup_insert_eq|]. split; [done|]. by rewrite Hs.
    + pose proof (any_copy_heap w tmp this a T v Ha Hne Hh Hs (Hmem eq_refl))
        as Hcopy.
      match type of Hcopy with _ = Ret _ ?x => set (wc := x) in * end.
      pose proof (fresh_block_free w) as Hp'.
      set (p' := fresh (dom (heap w))) in *.
      assert (anys wc !! this = Some a) as Hold
        by (cbn; by rewrite lookup_insert_ne).
      assert (holds wc a T v) as Hh'.
      { apply (holds_heap w); [done|]. intros p o _ Hp. cbn.
        rewrite lookup_insert_ne; [done|]. congruence. }
      assert (wf_any wc a) as Hwf by (right; by exists T, v).
      destruct (clear_wf _ _ _ Hold Hwf) as (wd & Hclear & _ & _ & Hkeep & _).
      do 2 eexists. split.
      * unfold assign_copy.
        apply (assignment_eq (λ tmp, any_copy tmp this) w this _ a wc wd
                 Hcopy (lookup_insert_eq _ _ _) Hold Hne Hclear).
      * cbn. split; [apply lookup_insert_eq|]. split; [done|]. cbn. rewrite Hs.
        exists p'. split; [done|]. apply Hkeep; [apply lookup_insert_eq|].
        destruct Hh as [_ Hd]. rewrite Hs in Hd. destruct Hd as (p & -> & Hp).
        congruence.
Qed.

Lemma any_from_value_Ret w this T v :
  (data_on_stack T = false → size_of T ≤ free_store w) →
  ∃ wc new, any_from_value this T v w = Ret tt wc ∧
            anys wc = <[this := new]> (anys w) ∧ holds wc new T v ∧
            (∀ q, data_ new = pheap q → heap w !! q = None) ∧
            (∀ q o, heap w !! q = Some o → heap wc !! q = Some o) ∧
            destructions (trace wc) = destructions (trace w) ∧
            releases (trace wc) = releases (trace w).
Proof.
  intros Hmem. destruct (data_on_stack T) eqn:Hs.
  - do 2 eexists. split; [by apply any_from_value_stack|]. cbn.
    rewrite destructions_app, releases_app. cbn.
    split; [done|]. split; [split; [done|]; by rewrite Hs|].
    split; [done|]. split; [done|]. lia.
  - pose proof (fresh_block_free w) as Hfresh.
    do 2 eexists. split; [apply any_from_value_heap; auto|]. cbn.
    rewrite destructions_app, releases_app. cbn.
    split; [done|]. split.
    { split; [done|]. rewrite Hs. eexists. split; [done|].
      apply lookup_insert_eq. }
    split; [by intros q [= <-]|].
    split; [|lia].
    intros q o Hq. rewrite lookup_insert_ne; [done|]. congruence.
Qed.

(** Outside the defect of the descriptor constructor, [operator=(T&&)] does
    what is documented: when the target holds a value of a type that is not
    POD, the assignment returns, the target holds the new value, exactly one
    payload destructor has run, and a heap block of the old content has
    been released. *)
Lemma assign_value_destroys_once w this old S v' T v :
  anys w !! this = Some old → holds w old S v' → is_pod S = false →
  (data_on_stack T = false → size_of T ≤ free_store w) →
  ∃ w' new, assign_value this T v w = Ret this w' ∧
            anys w' = <[this := new]> (anys w) ∧ holds w' new T v ∧
            destructions (trace w') = (destructions (trace w) + 1)%nat ∧
            (∀ p, data_ old = pheap p →
                  heap w' !! p = None ∧
                  releases (trace w') = (releases (trace w) + 1)%nat).
Proof.
  intros Hold Hh Hpod Hmem.
  pose proof (temporary_ne _ _ _ Hold) as Hne.
  destruct (any_from_value_Ret w (fresh (dom (anys w))) T v Hmem)
    as (wc & new & Hctor & Hanys & Hnew & Hfresh & Hext & Hd & Hr).
  assert (anys wc !! this = Some old) as Hold'
    by (rewrite Hanys; by rewrite lookup_insert_ne).
  assert (holds wc old S v') as Hh' by (apply (holds_heap w); eauto).
  assert (anys wc !! fresh (dom (anys w)) = Some new) as Hnew'
    by (rewrite Hanys; apply lookup_insert_eq).
  destruct (data_on_stack S) eqn:Hs.
  - pose proof (clear_stack _ _ _ _ _ Hold' Hh' Hpod Hs) as Hclear.
    pose proof (assign_value_eq _ _ _ _ _ _ _ _ Hold Hctor Hnew' Hclear)
      as Hrun.
    do 2 eexists. split; [exact Hrun|]. cbn.
    rewrite destructions_app, releases_app. cbn.
    split; [done|]. split; [by apply (holds_heap wc)|]. split; [lia|].
    intros p Hp. destruct Hh as [_ Hdat]. rewrite Hs in Hdat. congruence.
  - destruct Hh as [Hty Hdat]. rewrite Hs in Hdat.
    destruct Hdat as (p & Hp & Hblock).
    pose proof (clear_heap _ _ _ _ _ p Hold' Hh' Hpod Hs Hp) as Hclear.
    pose proof (assign_value_eq _ _ _ _ _ _ _ _ Hold Hctor Hnew' Hclear)
      as Hrun.
    do 2 eexists. split; [exact Hrun|]. cbn.
    rewrite destructions_app, releases_app. cbn.
    split; [done|]. split; [|split; [lia|]].
    + apply (holds_heap wc); [done|]. intros q o Hq Hlive. cbn.
      rewrite lookup_delete_ne; [done|]. intros <-.
      specialize (Hfresh _ Hq). congruence.
    + intros p' Hp'. assert (p' = p) as -> by congruence.
      split; [apply lookup_delete_eq | lia].
Qed.

(** * The documented properties *)


(** C3: move-constructing [B] from [A] returns normally; [B] receives the
    descriptor pointer and the raw storage of [A], so whatever [A] answered
    to [get<T>()] and [type()] is now answered by [B]; [A] is empty; the
    heap and the trace are unchanged, so no payload was constructed, copied
    or destroyed. *)
Theorem move_construct_relocates w A B a :
  A ≠ B → anys w !! A = Some a →
  ∃ w', any_move B A w = Ret tt w' ∧
        anys w' !! B = Some a ∧
        anys w' !! A = Some {| type_ := None; data_ := data_ a |} ∧
        empty A w' = Ret true w' ∧
        (∀ T v, read T A w = Ret v w → read T B w' = Ret v w') ∧
        (∀ ti, type A w = Ret ti w → type B w' = Ret ti w') ∧
        heap w' = heap w ∧ free_store w' = free_store w ∧ trace w' = trace w.
Proof.
  intros Hne Ha.
  set (w' := {| anys := <[A := {| type_ := None; data_ := data_ a |}]>
                          (<[B := a]> (anys w));
                heap := heap w; free_store := free_store w; trace := trace w |}).
  assert (anys w' !! B = Some a) as HB.
  { cbn. rewrite lookup_insert_ne by done. apply lookup_insert_eq. }
  assert (anys w' !! A = Some {| type_ := None; data_ := data_ a |}) as HA
    by apply lookup_insert_eq.
  exists w'. split; [by apply any_move_eq|].
  repeat split; try done.
  - by rewrite (empty_eq _ _ _ HA).
  - intros T v. by apply read_frame with (a := a).
  - intros ti. rewrite (type_eq _ _ _ Ha), (type_eq _ _ _ HB). congruence.
Qed.

(** C9: [swap] returns normally and exchanges the two container values
    (descriptor pointer and raw storage) and nothing else: other containers,
    the heap and the trace are unchanged, so no payload was constructed or
    destroyed; what [A] answered to [get<T>()], [type()] and [empty()] is now
    answered by [B], and conversely. *)
Theorem swap_exchanges w A B a b :
  anys w !! A = Some a → anys w !! B = Some b →
  ∃ w', swap A B w = Ret tt w' ∧
        anys w' !! A = Some b ∧ anys w' !! B = Some a ∧
        (∀ x, x ≠ A → x ≠ B → anys w' !! x = anys w !! x) ∧
        (∀ T v, read T A w = Ret v w → read T B w' = Ret v w') ∧
        (∀ T v, read T B w = Ret v w → read T A w' = Ret v w') ∧
        (∀ ti, type A w = Ret ti w → type B w' = Ret ti w') ∧
        (∀ ti, type B w = Ret ti w → type A w' = Ret ti w') ∧
        (∀ e, empty A w = Ret e w → empty B w' = Ret e w') ∧
        (∀ e, empty B w = Ret e w → empty A w' = Ret e w') ∧
        heap w' = heap w ∧ free_store w' = free_store w ∧ trace w' = trace w.
Proof.
  intros Ha Hb.
  set (w' := {| anys := <[B := a]> (<[A := b]> (anys w));
                heap := heap w; free_store := free_store w; trace := trace w |}).
  assert (anys w' !! A = Some b) as HA.
  { cbn. rewrite lookup_insert. case_decide; [|apply lookup_insert_eq].
    subst. congruence. }
  assert (anys w' !! B = Some a) as HB by apply lookup_insert_eq.
  exists w'. split; [by apply swap_eq|].
  repeat split; try done.
  - intros x HxA HxB. cbn. by rewrite !lookup_insert_ne.
  - intros T v. by apply read_frame with (a := a).
  - intros T v. by apply read_frame with (a := b).
  - intros ti. rewrite (type_eq _ _ _ Ha), (type_eq _ _ _ HB). congruence.
  - intros ti. rewrite (type_eq _ _ _ Hb), (type_eq _ _ _ HA). congruence.
  - intros e. rewrite (empty_eq _ _ _ Ha), (empty_eq _ _ _ HB). congruence.
  - intros e. rewrite (empty_eq _ _ _ Hb), (empty_eq _ _ _ HA). congruence.
Qed.

(** X24: on a well-formed container, the non-const [get<T>()] ends in the
    fatal "empty" diagnostic when the container is empty, ends in the fatal "mismatch"
    diagnostic, which names the stored and the requested type, when the
    container holds a value of another type, and returns a reference to the
    stored value when the container holds a [T]; it is fatal exactly when
    the descriptor is null or its identity token differs from [T]'s. *)
Theorem get_fails_exactly_when w this a T :
  anys w !! this = Some a → wf_any w a →
  (type_ a = None →
     get T this w = Raise (Fatal "The any container is empty") w) ∧
  (∀ S v, holds w a S v → S ≠ T →
     get T this w =
       Raise (Fatal ("The stored type mismatch stored=" +:+ type_name S
                     +:+ " requested=" +:+ type_name T)) w) ∧
  (∀ v, holds w a T v → ∃ r, get T this w = Ret r w ∧ deref T r w = Ret v w) ∧
  ((∃ msg u, get T this w = Raise (Fatal msg) u) ↔
   (type_ a = None ∨ ∃ t, type_ a = Some t ∧ ptype_info t ≠ typeid T)).
Proof.
  intros Ha Hwf.
  assert (∀ S v, holds w a S v → S ≠ T →
     get T this w =
       Raise (Fatal ("The stored type mismatch stored=" +:+ type_name S
                     +:+ " requested=" +:+ type_name T)) w) as Hmis.
  { intros S v [Ht _] Hne.
    rewrite (get_mismatch _ _ _ _ _ Ha Ht); [done|].
    cbn. intros Heq. by apply typeid_inj in Heq. }
  split; [by apply get_empty|]. split; [done|].
  split; [intros v; by apply get_holds|].
  split.
  - intros (msg & u & Hget).
    destruct Hwf as [Ht | (S & v & Hh)]; [by left|].
    right. destruct Hh as [Ht Hd]. eexists. split; [done|]. cbn.
    intros Heq. apply typeid_inj in Heq as ->.
    destruct (get_holds _ _ _ _ _ Ha (conj Ht Hd)) as (r & Hr & _). congruence.
  - intros [Ht | (t & Ht & Hne)].
    + do 2 eexists. by apply (get_empty _ _ _ _ Ha).
    + do 2 eexists. by eapply get_mismatch.
Qed.

(** C6: clearing a well-formed container returns normally and leaves it
    empty; a second [clear] returns normally without changing anything, so
    it releases nothing, and the container is still empty; over both calls
    at most one payload destructor runs and at most one block is released. *)
Theorem clear_idempotent w this a :
  anys w !! this = Some a → wf_any w a →
  ∃ w1, clear this w = Ret tt w1 ∧ empty this w1 = Ret true w1 ∧
        clear this w1 = Ret tt w1 ∧
        (destructions (trace w1) ≤ destructions (trace w) + 1)%nat ∧
        (releases (trace w1) ≤ releases (trace w) + 1)%nat.
Proof.
  intros Ha Hwf.
  destruct (clear_wf _ _ _ Ha Hwf) as (w1 & Hclear & Ha1 & _ & _ & Hd & Hr).
  exists w1. repeat split; try done.
  - by rewrite (empty_eq _ _ _ Ha1).
  - by apply (clear_empty _ _ _ Ha1).
Qed.

(** C7: a type is stored inline exactly when its size is at most three
    machine words and its alignment at most one.  Constructing a container
    from a value of such a type places the value in the buffer and touches
    no heap block; for any other type a fresh block holding the value is
    allocated and a pointer to it is written into the buffer, unless the
    free store is exhausted, in which case [std::bad_alloc] propagates. *)
Theorem storage_strategy w this T v :
  (data_on_stack T = true ↔
     size_of T ≤ 3 * sizeof_ptr ∧ align_of T ≤ sizeof_ptr) ∧
  (data_on_stack T = true →
     any_from this (fwd_value T v) w =
       Ret tt {| anys := <[this := {| type_ := Some (TypeInfo_get_type T);
                                      data_ := stack {| obj_type := T;
                                                        obj_val := v |} |}]>
                           (anys w);
                 heap := heap w; free_store := free_store w;
                 trace := trace w ++ [EvConstruct T v] |}) ∧
  (data_on_stack T = false → size_of T ≤ free_store w →
     heap w !! fresh (dom (heap w)) = None ∧
     any_from this (fwd_value T v) w =
       Ret tt {| anys := <[this := {| type_ := Some (TypeInfo_get_type T);
                                      data_ := pheap (fresh (dom (heap w))) |}]>
                           (anys w);
                 heap := <[fresh (dom (heap w)) :=
                             {| obj_type := T; obj_val := v |}]> (heap w);
                 free_store := free_store w - size_of T;
                 trace := trace w ++ [EvNew (fresh (dom (heap w)));
                                      EvConstruct T v] |}) ∧
  (data_on_stack T = false → free_store w < size_of T →
     ∃ w', any_from this (fwd_value T v) w = Raise BadAlloc w' ∧
           heap w' = heap w ∧ trace w' = trace w).
Proof.
  cbn [any_from].
  split; [apply data_on_stack_spec|].
  split; [apply any_from_value_stack|].
  split.
  - intros Hs Hm. split; [apply fresh_block_free | by apply any_from_value_heap].
  - intros Hs Hm. eexists. split; [by apply any_from_value_bad_alloc|done].
Qed.

(** C8, as amended: a type that is not POD has a destroy operation under
    either strategy, and for a type stored inline the destroy operation is
    absent exactly when the type is POD. *)
Theorem destroy_absent_for_inline_pod T :
  (is_pod T = false →
     destroy (TypeInfo_get_type T) = Some (TypeInfo_destroy T)) ∧
  (data_on_stack T = true →
     (destroy (TypeInfo_get_type T) = None ↔ is_pod T = true)).
Proof.
  unfold TypeInfo_get_type. cbn. split.
  - by intros ->.
  - intros _. by destruct (is_pod T).
Qed.

(** C10: after [B] is move-constructed from [A], the descriptor pointer of
    [A] is null while its buffer keeps the old bytes; [empty()] is true,
    [type()] is [typeid(void)], [get<T>()] ends in the "empty" diagnostic;
    [clear()] changes nothing and the destructor only gives up the storage
    of [A], neither touching the heap nor the trace.  A default-constructed
    container [D] answers the same. *)
Theorem moved_from_is_empty w A B D a :
  A ≠ B → anys w !! A = Some a →
  (∃ w', any_move B A w = Ret tt w' ∧
         anys w' !! A = Some {| type_ := None; data_ := data_ a |} ∧
         empty A w' = Ret true w' ∧ type A w' = Ret typeid_void w' ∧
         (∀ T, get T A w' = Raise (Fatal "The any container is empty") w') ∧
         clear A w' = Ret tt w' ∧
         ∃ w'', any_dtor A w' = Ret tt w'' ∧ anys w'' = delete A (anys w') ∧
                heap w'' = heap w' ∧ free_store w'' = free_store w' ∧
                trace w'' = trace w') ∧
  (∃ u, any_default D w = Ret tt u ∧
        empty D u = Ret true u ∧ type D u = Ret typeid_void u ∧
        (∀ T, get T D u = Raise (Fatal "The any container is empty") u) ∧
        clear D u = Ret tt u).
Proof.
  intros Hne Ha. split.
  - destruct (any_move_leaves_source_empty w A B a Hne Ha) as (w' & Hrun & HA).
    exists w'. split; [done|]. split; [done|].
    split; [by rewrite (empty_eq _ _ _ HA)|].
    split; [by rewrite (type_eq _ _ _ HA)|].
    split; [intros T; by apply (get_empty _ _ _ _ HA)|].
    assert (clear A w' = Ret tt w') as Hc by by apply (clear_empty _ _ _ HA).
    split; [done|].
    eexists. split; [unfold any_dtor; by rewrite (bind_Ret _ _ _ _ _ Hc)|done].
  - eexists. split; [done|]. cbn.
    match goal with |- context [empty D ?x] => set (u := x) end.
    assert (anys u !! D = Some {| type_ := None; data_ := Indeterminate |}) as HA
      by apply lookup_insert_eq.
    split; [by rewrite (empty_eq _ _ _ HA)|].
    split; [by rewrite (type_eq _ _ _ HA)|].
    split; [intros T; by apply (get_empty _ _ _ _ HA)|].
    by apply (clear_empty _ _ _ HA).
Qed.


(** * Further properties of the container *)

(** ** Helpers *)

Lemma read_holds w this a T v :
  anys w !! this = Some a → holds w a T v → read T this w = Ret v w.
Proof.
  intros Ha Hh. destruct (get_holds _ _ _ _ _ Ha Hh) as (r & Hget & Hread).
  unfold read. by rewrite (bind_Ret _ _ _ _ _ Hget).
Qed.

Lemma holds_not_empty w a T v : holds w a T v → type_ a ≠ None.
Proof. intros [Ht _]. by rewrite Ht. Qed.

Lemma holds_owns_live w a T v p :
  holds w a T v → data_ a = pheap p →
  data_on_stack T = false ∧ heap w !! p = Some {| obj_type := T; obj_val := v |}.
Proof.
  intros [_ Hd] Hp. destruct (data_on_stack T).
  - congruence.
  - destruct Hd as (q & Hq & Hlive). split; [done|]. congruence.
Qed.

Lemma owns_live w a p :
  wf_any w a → owns a p → is_Some (heap w !! p).
Proof.
  intros [Ht | (T & v & Hh)] [Hne Hp]; [done|].
  destruct (holds_owns_live _ _ _ _ _ Hh Hp) as [_ Hlive]. eauto.
Qed.

Lemma wf_any_heap w u a :
  wf_any w a → (∀ p, owns a p → heap u !! p = heap w !! p) → wf_any u a.
Proof.
  intros [Ht | (T & v & Hh)] Hsame; [by left|]. right. exists T, v.
  apply (holds_heap w); [done|]. intros p o Hp Hlive.
  rewrite Hsame; [done|]. split; [by eapply holds_not_empty | done].
Qed.

Lemma get_holds_eq w this a T v :
  anys w !! this = Some a → holds w a T v →
  get T this w =
    Ret (match data_ a with pheap p => RefHeap p | _ => RefStack this end) w.
Proof.
  intros Ha [Ht Hd]. unfold get, check_type, TypeInfo_get_ptr,
    TypeOnStack_get_ptr, TypeOnHeap_get_ptr.
  unfold_prims. rewrite Ha, Ht. cbn.
  rewrite bool_decide_true by done. cbn.
  destruct (data_on_stack T).
  - by rewrite Hd.
  - destruct Hd as (p & Hp & Hh). by rewrite Ha, Hp.
Qed.

(** [get<T>()] in terms of the container value it is called on. *)
Lemma get_eq w this a T :
  anys w !! this = Some a →
  get T this w =
    match type_ a with
    | None => Raise (Fatal "The any container is empty") w
    | Some t =>
        if bool_decide (ptype_info t = typeid T) then
          if data_on_stack T then Ret (RefStack this) w
          else match data_ a with
               | pheap p => Ret (RefHeap p) w
               | _ => Raise (Undefined "pheap is not the active member") w
               end
        else Raise (Fatal ("The stored type mismatch stored="
                           +:+ name (ptype_info t)
                           +:+ " requested=" +:+ type_name T)) w
    end.
Proof.
  intros Ha. unfold get, check_type, TypeInfo_get_ptr, TypeOnStack_get_ptr,
    TypeOnHeap_get_ptr.
  unfold_prims. rewrite Ha. cbn.
  destruct (type_ a) as [t|]; cbn; [|done].
  case_bool_decide; cbn; [|done].
  destruct (data_on_stack T); cbn; [done|].
  rewrite Ha. cbn. by destruct (data_ a).
Qed.

Lemma deref_stack_eq w this a T :
  anys w !! this = Some a →
  deref T (RefStack this) w =
    match data_ a with
    | stack o =>
        if decide (obj_type o = T) then Ret (obj_val o) w
        else Raise (Undefined "no object of this type in the buffer") w
    | _ => Raise (Undefined "no object of this type in the buffer") w
    end.
Proof.
  intros Ha. unfold deref. unfold_prims. rewrite Ha. cbn.
  destruct (data_ a) as [|o|p]; cbn; try done.
  by destruct (decide (obj_type o = T)).
Qed.

Lemma any_dtor_eq w this wc :
  clear this w = Ret tt wc →
  any_dtor this w =
    Ret tt {| anys := delete this (anys wc); heap := heap wc;
              free_store := free_store wc; trace := trace wc |}.
Proof. intros Hc. unfold any_dtor. by rewrite (bind_Ret _ _ _ _ _ Hc). Qed.

(** ** Copy construction *)

(** X1: copy-constructing [B] from a container [A] that holds [v] returns
    normally when the allocator can supply the copy; afterwards both
    containers hold [v], [get<T>()] returns different references for them,
    no other container changed, exactly one payload constructor ran and no
    destructor did. *)
Theorem copy_construct_is_deep w A B a T v :
  A ≠ B → anys w !! A = Some a → holds w a T v →
  (data_on_stack T = false → size_of T ≤ free_store w) →
  ∃ w' rA rB,
    any_copy B A w = Ret tt w' ∧
    get T A w' = Ret rA w' ∧ deref T rA w' = Ret v w' ∧
    get T B w' = Ret rB w' ∧ deref T rB w' = Ret v w' ∧
    rA ≠ rB ∧
    (∀ x, x ≠ B → anys w' !! x = anys w !! x) ∧
    trace w' = trace w ++
               (if data_on_stack T then [] else [EvNew (fresh (dom (heap w)))])
               ++ [EvConstruct T v].
Proof.
  intros Hne Ha Hh Hmem. pose proof (not_eq_sym Hne) as Hne'.
  destruct (data_on_stack T) eqn:Hs.
  - pose proof (any_copy_stack w B A a T v Ha Hne' Hh Hs) as Hrun.
    match type of Hrun with _ = Ret _ ?x => set (w' := x) in * end.
    assert (anys w' !! A = Some a) as HA by (cbn; by rewrite lookup_insert_ne).
    assert (holds w' a T v) as HhA by by apply (holds_heap w).
    assert (anys w' !! B = Some {| type_ := Some (TypeInfo_get_type T);
              data_ := stack {| obj_type := T; obj_val := v |} |}) as HB
      by apply lookup_insert_eq.
    assert (holds w' {| type_ := Some (TypeInfo_get_type T);
              data_ := stack {| obj_type := T; obj_val := v |} |} T v) as HhB
      by (split; [done|]; by rewrite Hs).
    destruct (get_holds _ _ _ _ _ HA HhA) as (rA & HgA & HdA).
    destruct (get_holds _ _ _ _ _ HB HhB) as (rB & HgB & HdB).
    exists w', rA, rB. repeat split; try done.
    + rewrite (get_holds_eq _ _ _ _ _ HA HhA) in HgA.
      rewrite (get_holds_eq _ _ _ _ _ HB HhB) in HgB.
      destruct Hh as [_ Hd]. rewrite Hs in Hd. rewrite Hd in HgA.
      cbn in HgA, HgB. congruence.
    + intros x Hx. cbn. by rewrite lookup_insert_ne.
  - pose proof (any_copy_heap w B A a T v Ha Hne' Hh Hs (Hmem eq_refl)) as Hrun.
    pose proof (fresh_block_free w) as Hfresh.
    set (p' := fresh (dom (heap w))) in *.
    match type of Hrun with _ = Ret _ ?x => set (w' := x) in * end.
    assert (anys w' !! A = Some a) as HA by (cbn; by rewrite lookup_insert_ne).
    assert (holds w' a T v) as HhA.
    { apply (holds_heap w); [done|]. intros p o _ Hp. cbn.
      rewrite lookup_insert_ne; [done|]. congruence. }
    assert (anys w' !! B = Some {| type_ := Some (TypeInfo_get_type T);
                                   data_ := pheap p' |}) as HB
      by apply lookup_insert_eq.
    assert (holds w' {| type_ := Some (TypeInfo_get_type T);
                        data_ := pheap p' |} T v) as HhB.
    { split; [done|]. cbn. rewrite Hs. exists p'. split; [done|].
      apply lookup_insert_eq. }
    destruct (get_holds _ _ _ _ _ HA HhA) as (rA & HgA & HdA).
    destruct (get_holds _ _ _ _ _ HB HhB) as (rB & HgB & HdB).
    exists w', rA, rB. repeat split; try done.
    + rewrite (get_holds_eq _ _ _ _ _ HA HhA) in HgA.
      rewrite (get_holds_eq _ _ _ _ _ HB HhB) in HgB.
      destruct Hh as [_ Hd]. rewrite Hs in Hd. destruct Hd as (p & Hp & Hlive).
      rewrite Hp in HgA. cbn in HgA, HgB. congruence.
    + intros x Hx. cbn. by rewrite lookup_insert_ne.
Qed.

(** X2: copy-constructing from an empty container gives an empty container;
    nothing is allocated, no payload constructor runs and the source is as
    it was. *)
Theorem copy_of_empty_is_empty w A B a :
  A ≠ B → anys w !! A = Some a → type_ a = None →
  ∃ w', any_copy B A w = Ret tt w' ∧
        empty B w' = Ret true w' ∧ type B w' = Ret typeid_void w' ∧
        anys w' !! A = Some a ∧
        heap w' = heap w ∧ free_store w' = free_store w ∧ trace w' = trace w.
Proof.
  intros Hne Ha Ht. pose proof (not_eq_sym Hne) as Hne'.
  pose proof (any_copy_empty w B A a Ha Hne' Ht) as Hrun.
  match type of Hrun with _ = Ret _ ?x => set (w' := x) in * end.
  assert (anys w' !! B = Some {| type_ := None; data_ := Indeterminate |}) as HB
    by apply lookup_insert_eq.
  exists w'. split; [done|].
  split; [by rewrite (empty_eq _ _ _ HB)|].
  split; [by rewrite (type_eq _ _ _ HB)|].
  split; [cbn; by rewrite lookup_insert_ne | done].
Qed.

(** X3: when the allocator cannot supply the block for the copy of a
    heap-stored payload, the copy constructor does not throw: the exception
    meets the [noexcept] of [construct] and [std::terminate] is called, with
    the source, the heap and the trace as they were. *)
Theorem copy_construct_out_of_memory_terminates w A B a T v :
  A ≠ B → anys w !! A = Some a → holds w a T v →
  data_on_stack T = false → free_store w < size_of T →
  ∃ w', any_copy B A w = Raise Terminate w' ∧
        anys w' !! A = Some a ∧ heap w' = heap w ∧
        free_store w' = free_store w ∧ trace w' = trace w.
Proof.
  intros Hne Ha Hh Hs Hm. pose proof (not_eq_sym Hne) as Hne'.
  eexists. split; [by eapply any_copy_bad_alloc|].
  cbn. by rewrite lookup_insert_ne.
Qed.

(** X4: a copy and its original are independent: after [B] is
    copy-constructed from [A], clearing either one returns normally and the
    other still yields [v] to [get<T>()]. *)
Theorem copy_survives_clear w A B a T v :
  A ≠ B → anys w !! A = Some a → holds w a T v →
  (data_on_stack T = false → size_of T ≤ free_store w) →
  ∃ w' wa wb,
    any_copy B A w = Ret tt w' ∧
    clear A w' = Ret tt wa ∧ read T B wa = Ret v wa ∧
    clear B w' = Ret tt wb ∧ read T A wb = Ret v wb.
Proof.
  intros Hne Ha Hh Hmem. pose proof (not_eq_sym Hne) as Hne'.
  assert (∃ w' b, any_copy B A w = Ret tt w' ∧
            anys w' !! A = Some a ∧ holds w' a T v ∧
            anys w' !! B = Some b ∧ holds w' b T v ∧
            (∀ p, data_ a = pheap p → data_ b ≠ pheap p))
    as (w' & b & Hrun & HA & HhA & HB & HhB & Hdiff).
  { destruct (data_on_stack T) eqn:Hs.
    - do 2 eexists. split; [by eapply any_copy_stack|]. cbn.
      split; [by rewrite lookup_insert_ne|].
      split; [by apply (holds_heap w)|].
      split; [apply lookup_insert_eq|].
      split; [split; [done|]; by rewrite Hs | done].
    - pose proof (fresh_block_free w) as Hfresh.
      do 2 eexists. split; [eapply any_copy_heap; eauto|]. cbn.
      split; [by rewrite lookup_insert_ne|].
      split.
      { apply (holds_heap w); [done|]. intros p o _ Hp. cbn.
        rewrite lookup_insert_ne; [done|]. congruence. }
      split; [apply lookup_insert_eq|].
      split.
      { split; [done|]. cbn. rewrite Hs. eexists. split; [done|].
        apply lookup_insert_eq. }
      intros p Hp [= <-].
      destruct (holds_owns_live _ _ _ _ _ Hh Hp) as [_ Hlive]. congruence. }
  assert (wf_any w' a) as HwfA by (right; by exists T, v).
  assert (wf_any w' b) as HwfB by (right; by exists T, v).
  destruct (clear_wf _ _ _ HA HwfA) as (wa & Hca & _ & HotherA & HkeepA & _).
  destruct (clear_wf _ _ _ HB HwfB) as (wb & Hcb & _ & HotherB & HkeepB & _).
  exists w', wa, wb. split; [done|]. split; [done|]. split; [|split; [done|]].
  - apply (read_holds _ _ b); [by rewrite HotherA|].
    apply (holds_heap w'); [done|]. intros p o Hp Hlive.
    apply HkeepA; [done|]. intros Hp'. by apply (Hdiff p).
  - apply (read_holds _ _ a); [by rewrite HotherB|].
    apply (holds_heap w'); [done|]. intros p o Hp Hlive.
    apply HkeepB; [done|]. intros Hp'. by apply (Hdiff p).
Qed.

(** ** Queries *)

(** X5: [get<T>()], [type()] and [empty()] are pure reads: whatever they
    answer, also when [get] ends in a fatal diagnostic, the store, the heap
    and the trace are left exactly as they were. *)
Theorem queries_do_not_modify w this T :
  world_of (get T this w) = w ∧ world_of (type this w) = w ∧
  world_of (empty this w) = w.
Proof.
  unfold get, check_type, type, empty, noexcept, TypeInfo_get_ptr,
    TypeOnStack_get_ptr, TypeOnHeap_get_ptr.
  unfold_prims.
  destruct (anys w !! this) as [[[t|] d]|]; cbn; try done.
  split; [|done].
  case_bool_decide; cbn; [|done].
  destruct (data_on_stack T); cbn; [done|].
  destruct (anys w !! this) as [[ty [|o|p]]|]; by cbn.
Qed.

(** X6: for a well-formed container, [type()] answers [typeid(void)]
    exactly when [empty()] answers true. *)
Theorem type_void_iff_empty w this a :
  anys w !! this = Some a → wf_any w a →
  (type this w = Ret typeid_void w ↔ empty this w = Ret true w).
Proof.
  intros Ha Hwf. rewrite (type_eq _ _ _ Ha), (empty_eq _ _ _ Ha).
  destruct Hwf as [Ht | (T & v & [Ht _])]; rewrite Ht; cbn.
  - done.
  - split; intros [=].
Qed.

(** ** Swap *)

(** X7: swapping the same two containers twice gives back the world the
    first swap started from. *)
Theorem swap_twice_restores w A B a b :
  anys w !! A = Some a → anys w !! B = Some b →
  (swap A B;; swap A B) w = Ret tt w.
Proof.
  intros Ha Hb.
  rewrite (bind_Ret _ _ _ _ _ (swap_eq _ _ _ _ _ Ha Hb)).
  match goal with |- _ ?x = _ => set (w1 := x) end.
  assert (anys w1 !! A = Some b) as HA.
  { cbn. rewrite lookup_insert. case_decide; [|apply lookup_insert_eq].
    subst. congruence. }
  assert (anys w1 !! B = Some a) as HB by apply lookup_insert_eq.
  rewrite (swap_eq _ _ _ _ _ HA HB). f_equal.
  apply World_eq; [|done..]. cbn. store_ext.
Qed.

(** X8: [swap] is symmetric: [A.swap(B)] and [B.swap(A)] lead to the same
    world. *)
Theorem swap_symmetric w A B a b :
  anys w !! A = Some a → anys w !! B = Some b →
  swap A B w = swap B A w.
Proof.
  intros Ha Hb.
  rewrite (swap_eq _ _ _ _ _ Ha Hb), (swap_eq _ _ _ _ _ Hb Ha).
  do 2 f_equal. store_ext.
Qed.

(** ** Move construction *)

(** X9: the move is a relocation of the raw storage: if [get<T>()] on [A]
    returned the reference [r], then after [B] is move-constructed from [A]
    [get<T>()] on [B] returns [r] itself when the payload lives on the heap
    and the same place in the buffer of [B] when it lives inline, and what
    was read through [r] is read through the new reference. *)
Theorem move_relocates_reference w A B a T r :
  A ≠ B → anys w !! A = Some a → get T A w = Ret r w →
  ∃ w', any_move B A w = Ret tt w' ∧
        get T B w' = Ret (relocated B r) w' ∧
        (∀ v, deref T r w = Ret v w → deref T (relocated B r) w' = Ret v w').
Proof.
  intros Hne Ha Hget.
  set (w' := {| anys := <[A := {| type_ := None; data_ := data_ a |}]>
                          (<[B := a]> (anys w));
                heap := heap w; free_store := free_store w; trace := trace w |}).
  assert (anys w' !! B = Some a) as HB.
  { cbn. rewrite lookup_insert_ne by done. apply lookup_insert_eq. }
  exists w'. split; [by apply any_move_eq|].
  revert Hget. rewrite (get_eq _ _ _ _ Ha), (get_eq _ _ _ _ HB).
  destruct (type_ a) as [t|]; [|done].
  case_bool_decide; [|done].
  destruct (data_on_stack T).
  - intros [= <-]. split; [done|]. intros v. cbn [relocated].
    rewrite (deref_stack_eq _ _ _ _ Ha), (deref_stack_eq _ _ _ _ HB).
    destruct (data_ a) as [|o|p]; try done.
    destruct (decide (obj_type o = T)); congruence.
  - destruct (data_ a) as [|o|p]; try done.
    intros [= <-]. split; [done|]. intros v. cbn.
    destruct (heap w !! p) as [o|]; [|done].
    destruct (decide (obj_type o = T)); congruence.
Qed.

(** X10: after a move the payload has one owner: when [B] is
    move-constructed from [A], which holds a value of a type that is not
    POD, and then both are destroyed, the destructor of the payload runs
    exactly once, a heap block is released exactly once, and the block is
    gone. *)
Theorem move_then_destroy_both_once w A B a T v :
  A ≠ B → anys w !! A = Some a → holds w a T v → is_pod T = false →
  ∃ w', (any_move B A;; any_dtor A;; any_dtor B) w = Ret tt w' ∧
        anys w' = delete B (delete A (anys w)) ∧
        destructions (trace w') = (destructions (trace w) + 1)%nat ∧
        releases (trace w') =
          (releases (trace w) + if data_on_stack T then 0 else 1)%nat ∧
        (∀ p, data_ a = pheap p → heap w' !! p = None).
Proof.
  intros Hne Ha Hh Hpod.
  pose proof (any_move_eq _ _ _ _ Hne Ha) as H1.
  match type of H1 with _ = Ret _ ?x => set (w1 := x) in * end.
  assert (anys w1 !! A = Some {| type_ := None; data_ := data_ a |}) as HA
    by apply lookup_insert_eq.
  pose proof (any_dtor_eq _ _ _ (clear_empty _ _ _ HA eq_refl)) as H2.
  match type of H2 with _ = Ret _ ?x => set (w2 := x) in * end.
  assert (anys w2 !! B = Some a) as HB.
  { cbn. rewrite lookup_delete_ne by done.
    rewrite lookup_insert_ne by done. apply lookup_insert_eq. }
  assert (holds w2 a T v) as Hh2 by by apply (holds_heap w).
  assert (∀ w3, any_dtor B w2 = Ret tt w3 →
            (any_move B A;; any_dtor A;; any_dtor B) w = Ret tt w3) as Hseq.
  { intros w3 H3. rewrite (bind_Ret _ _ _ _ _ H1). cbv beta.
    by rewrite (bind_Ret _ _ _ _ _ H2). }
  destruct (data_on_stack T) eqn:Hs.
  - pose proof (any_dtor_eq _ _ _ (clear_stack _ _ _ _ _ HB Hh2 Hpod Hs)) as H3.
    eexists. split; [exact (Hseq _ H3)|].
    cbn. rewrite destructions_app, releases_app. cbn.
    split; [store_ext|]. split; [lia|]. split; [lia|].
    intros p Hp. destruct Hh as [_ Hd]. rewrite Hs in Hd. congruence.
  - destruct Hh as [Hty Hd]. rewrite Hs in Hd. destruct Hd as (p & Hp & Hlive).
    pose proof (any_dtor_eq _ _ _ (clear_heap _ _ _ _ _ p HB Hh2 Hpod Hs Hp))
      as H3.
    eexists. split; [exact (Hseq _ H3)|].
    cbn. rewrite destructions_app, releases_app. cbn.
    split; [store_ext|]. split; [lia|]. split; [lia|].
    intros q Hq. assert (q = p) as -> by congruence. apply lookup_delete_eq.
Qed.

(** ** Construction followed by destruction *)

(** X11: for every payload type except a heap-stored POD, constructing a
    container at a free address and destroying it gives back the store, the
    heap and the free store it started from; a heap-stored payload is
    released exactly once on the way. *)
Theorem construct_destroy_restores w this T v :
  anys w !! this = None →
  is_pod T = false ∨ data_on_stack T = true →
  (data_on_stack T = false → size_of T ≤ free_store w) →
  ∃ w', (any_from this (fwd_value T v);; any_dtor this) w = Ret tt w' ∧
        anys w' = anys w ∧ heap w' = heap w ∧
        free_store w' = free_store w ∧
        releases (trace w') =
          (releases (trace w) + if data_on_stack T then 0 else 1)%nat.
Proof.
  intros Hfree Hok Hmem. cbn [any_from].
  assert (∀ w1 wc, any_from_value this T v w = Ret tt w1 →
            clear this w1 = Ret tt wc →
            (any_from_value this T v;; any_dtor this) w =
              Ret tt {| anys := delete this (anys wc); heap := heap wc;
                        free_store := free_store wc; trace := trace wc |})
    as Hseq.
  { intros w1 wc H1 Hc. rewrite (bind_Ret _ _ _ _ _ H1). cbv beta.
    by apply any_dtor_eq. }
  destruct (data_on_stack T) eqn:Hs.
  - pose proof (any_from_value_stack w this T v Hs) as H1.
    match type of H1 with _ = Ret _ ?x => set (w1 := x) in * end.
    assert (anys w1 !! this = Some {| type_ := Some (TypeInfo_get_type T);
              data_ := stack {| obj_type := T; obj_val := v |} |}) as Ha
      by apply lookup_insert_eq.
    assert (holds w1 {| type_ := Some (TypeInfo_get_type T);
              data_ := stack {| obj_type := T; obj_val := v |} |} T v) as Hh
      by (split; [done|]; by rewrite Hs).
    destruct (is_pod T) eqn:Hpod.
    + pose proof (Hseq _ _ H1 (clear_pod _ _ _ _ _ Ha Hh Hpod)) as Hrun.
      eexists. split; [exact Hrun|].
      cbn. rewrite releases_app. cbn. split; [store_ext|]. split; [done|].
      split; [done|lia].
    + pose proof (Hseq _ _ H1 (clear_stack _ _ _ _ _ Ha Hh Hpod Hs)) as Hrun.
      eexists. split; [exact Hrun|].
      cbn. rewrite !releases_app. cbn. split; [store_ext|]. split; [done|].
      split; [done|lia].
  - destruct Hok as [Hpod|]; [|done].
    pose proof (fresh_block_free w) as Hp'.
    pose proof (any_from_value_heap w this T v Hs (Hmem eq_refl)) as H1.
    set (p' := fresh (dom (heap w))) in *.
    match type of H1 with _ = Ret _ ?x => set (w1 := x) in * end.
    assert (anys w1 !! this = Some {| type_ := Some (TypeInfo_get_type T);
                                      data_ := pheap p' |}) as Ha
      by apply lookup_insert_eq.
    assert (holds w1 {| type_ := Some (TypeInfo_get_type T);
                        data_ := pheap p' |} T v) as Hh.
    { split; [done|]. cbn. rewrite Hs. exists p'. split; [done|].
      apply lookup_insert_eq. }
    pose proof (Hseq _ _ H1 (clear_heap _ _ _ _ _ p' Ha Hh Hpod Hs eq_refl))
      as Hrun.
    eexists. split; [exact Hrun|].
    cbn. rewrite !releases_app. cbn.
    split; [store_ext|]. split; [by apply delete_insert_id|].
    split; [|lia]. specialize (Hmem eq_refl). lia.
Qed.

(** ** The invariant of the store *)

(** Replacing one container keeps the invariant when the blocks of the
    other containers are untouched, the new container value is well formed
    and it refers to no block another container refers to. *)
Lemma wf_world_store w u this new :
  wf_world w →
  anys u = <[this := new]> (anys w) →
  (∀ y b q, y ≠ this → anys w !! y = Some b → owns b q →
            heap u !! q = heap w !! q) →
  wf_any u new →
  (∀ p y b, owns new p → y ≠ this → anys w !! y = Some b → ¬ owns b p) →
  wf_world u.
Proof.
  intros [Hwf Huniq] Hanys Hheap Hnew Hfresh. split.
  - intros x a. rewrite Hanys, lookup_insert. case_decide as Hx.
    + by intros [= <-].
    + intros Ha. apply (wf_any_heap w); [by eapply Hwf|].
      intros p Hp. eapply Hheap; eauto.
  - intros x y a b p. rewrite Hanys, !lookup_insert.
    repeat case_decide; subst; try done.
    + intros [= <-] Hb Ha Hb'. by destruct (Hfresh p y b).
    + intros Ha [= <-] Ha' Hb'. by destruct (Hfresh p x a).
    + intros Ha Hb. by eapply Huniq.
Qed.

(** Taking a container out of the store keeps the invariant. *)
Lemma wf_world_delete w u this :
  wf_world w → anys u = delete this (anys w) → heap u = heap w → wf_world u.
Proof.
  intros [Hwf Huniq] Hanys Hheap. split.
  - intros x a. rewrite Hanys. intros Ha%lookup_delete_Some.
    apply (wf_any_heap w); [by eapply Hwf; apply Ha|].
    intros p _. by rewrite Hheap.
  - intros x y a b p. rewrite Hanys.
    intros [_ Ha]%lookup_delete_Some [_ Hb]%lookup_delete_Some.
    by eapply Huniq.
Qed.

Lemma owns_block_live w x a p :
  wf_world w → anys w !! x = Some a → owns a p → is_Some (heap w !! p).
Proof. intros [Hwf _] Ha Hp. eapply owns_live; eauto. Qed.

Lemma holds_wf_any w a T v : holds w a T v → wf_any w a.
Proof. intros Hh. right. by exists T, v. Qed.

Lemma any_from_value_wf w this T v w' :
  wf_world w → any_from_value this T v w = Ret tt w' → wf_world w'.
Proof.
  intros Hw Hrun.
  assert (data_on_stack T = false → size_of T ≤ free_store w) as Hmem.
  { intros Hs. destruct (N.le_gt_cases (size_of T) (free_store w)); [done|].
    by rewrite any_from_value_bad_alloc in Hrun. }
  destruct (any_from_value_Ret w this T v Hmem)
    as (wc & new & Hrun' & Hanys & Hnew & Hfresh & Hext & _).
  assert (wc = w') as -> by congruence.
  apply (wf_world_store w w' this new); try done.
  - intros y b q _ Hb Hq.
    destruct (owns_block_live _ _ _ _ Hw Hb Hq) as [o Ho].
    by rewrite Ho, (Hext _ _ Ho).
  - by eapply holds_wf_any.
  - intros p y b [_ Hp] _ Hb Hq.
    destruct (owns_block_live _ _ _ _ Hw Hb Hq) as [o Ho].
    rewrite (Hfresh _ Hp) in Ho. done.
Qed.

Lemma any_default_wf w this :
  wf_world w →
  wf_world {| anys := <[this := {| type_ := None; data_ := Indeterminate |}]>
                        (anys w);
              heap := heap w; free_store := free_store w; trace := trace w |}.
Proof.
  intros Hw. eapply (wf_world_store w _ this); try done.
  - by left.
  - by intros p y b [Hne _].
Qed.

Lemma any_copy_wf w this other b w' :
  wf_world w → this ≠ other → anys w !! other = Some b →
  any_copy this other w = Ret tt w' → wf_world w'.
Proof.
  intros Hw Hne Hb Hrun.
  destruct (proj1 Hw _ _ Hb) as [Ht | (T & v & Hh)].
  - rewrite (any_copy_empty _ _ _ _ Hb Hne Ht) in Hrun.
    injection Hrun as <-. by apply any_default_wf.
  - destruct (data_on_stack T) eqn:Hs.
    + rewrite (any_copy_stack _ _ _ _ _ _ Hb Hne Hh Hs) in Hrun.
      injection Hrun as <-. eapply (wf_world_store w _ this); try done.
      * apply (holds_wf_any _ _ T v). split; [done|]. by rewrite Hs.
      * by intros p y b' [_ Hp].
    + destruct (N.le_gt_cases (size_of T) (free_store w)) as [Hm|Hm];
        [|by rewrite (any_copy_bad_alloc _ _ _ _ _ _ Hb Hne Hh Hs Hm) in Hrun].
      rewrite (any_copy_heap _ _ _ _ _ _ Hb Hne Hh Hs Hm) in Hrun.
      injection Hrun as <-. pose proof (fresh_block_free w) as Hfresh.
      eapply (wf_world_store w _ this); try done.
      * intros y b' q _ Hb' Hq. cbn.
        destruct (owns_block_live _ _ _ _ Hw Hb' Hq) as [o Ho].
        rewrite lookup_insert_ne; [done|]. congruence.
      * apply (holds_wf_any _ _ T v). split; [done|]. cbn. rewrite Hs.
        eexists. split; [done|]. apply lookup_insert_eq.
      * intros p y b' [_ Hp] _ Hb' Hq. cbn in Hp. injection Hp as <-.
        destruct (owns_block_live _ _ _ _ Hw Hb' Hq) as [o Ho]. congruence.
Qed.

Lemma emptied_wf w d : wf_any w {| type_ := None; data_ := d |}.
Proof. by left. Qed.

Lemma emptied_owns_nothing d p : ¬ owns {| type_ := None; data_ := d |} p.
Proof. by intros [Hne _]. Qed.

Lemma any_move_wf w A B a :
  wf_world w → A ≠ B → anys w !! A = Some a →
  wf_world {| anys := <[A := {| type_ := None; data_ := data_ a |}]>
                        (<[B := a]> (anys w));
              heap := heap w; free_store := free_store w; trace := trace w |}.
Proof.
  intros Hw Hne Ha.
  set (u := {| anys := <[A := {| type_ := None; data_ := data_ a |}]> (anys w);
               heap := heap w; free_store := free_store w;
               trace := trace w |}).
  assert (wf_world u) as Hu.
  { apply (wf_world_store w u A {| type_ := None; data_ := data_ a |});
      try done.
    - apply emptied_wf.
    - intros p y b Hp. by apply emptied_owns_nothing in Hp. }
  eapply (wf_world_store u _ B a); try done.
  - cbn. by apply insert_insert_ne.
  - apply (wf_any_heap w); [by eapply (proj1 Hw)|done].
  - intros p y b Hp Hy. cbn. rewrite lookup_insert. case_decide.
    + intros [= <-]. apply emptied_owns_nothing.
    + intros Hb Hq. destruct Hw as [_ Huniq].
      assert (A = y) by by eapply Huniq. done.
Qed.

Lemma swap_wf w A B a b :
  wf_world w → anys w !! A = Some a → anys w !! B = Some b →
  wf_world {| anys := <[B := a]> (<[A := b]> (anys w));
              heap := heap w; free_store := free_store w; trace := trace w |}.
Proof.
  intros [Hwf Huniq] Ha Hb. split.
  - intros x c. cbn. rewrite !lookup_insert. repeat case_decide; subst.
    + intros [= <-]. apply (wf_any_heap w); [by eapply Hwf|done].
    + intros [= <-]. apply (wf_any_heap w); [by eapply Hwf|done].
    + intros Hc. apply (wf_any_heap w); [by eapply Hwf|done].
  - intros x y c d p. cbn. rewrite !lookup_insert.
    repeat case_decide; subst; try done.
    + intros [= <-] [= <-] Hp Hq. symmetry. by eapply Huniq.
    + intros [= <-] Hd Hp Hq. assert (A = y) by by eapply Huniq. done.
    + intros [= <-] [= <-] Hp Hq. symmetry. by eapply Huniq.
    + intros [= <-] Hd Hp Hq. assert (B = y) by by eapply Huniq. done.
    + intros Hc [= <-] Hp Hq. assert (x = A) by by eapply Huniq. done.
    + intros Hc [= <-] Hp Hq. assert (x = B) by by eapply Huniq. done.
    + intros Hc Hd. by eapply Huniq.
Qed.

Lemma constructions_app (l l' : list Event) :
  constructions (l ++ l') = (constructions l + constructions l')%nat.
Proof. induction l as [|[] l IH]; cbn; lia. Qed.

(** [clear] of a container of a well-formed store returns normally, leaves
    the blocks of the other containers alone and keeps the invariant. *)
Lemma clear_wf_world w this a :
  wf_world w → anys w !! this = Some a →
  ∃ w', clear this w = Ret tt w' ∧ wf_world w' ∧
        anys w' = <[this := {| type_ := None; data_ := data_ a |}]> (anys w) ∧
        (∀ y b q, y ≠ this → anys w !! y = Some b → owns b q →
                  heap w' !! q = heap w !! q) ∧
        (destructions (trace w') ≤ destructions (trace w) + 1)%nat ∧
        constructions (trace w') = constructions (trace w).
Proof.
  intros Hw Ha.
  assert (∃ w', clear this w = Ret tt w' ∧
            anys w' = <[this := {| type_ := None; data_ := data_ a |}]> (anys w) ∧
            (∀ q, ¬ owns a q → heap w' !! q = heap w !! q) ∧
            (destructions (trace w') ≤ destructions (trace w) + 1)%nat ∧
            constructions (trace w') = constructions (trace w))
    as (w' & Hrun & Hanys & Hheap & Hd).
  { destruct (proj1 Hw _ _ Ha) as [Ht | (T & v & Hh)].
    - exists w. split; [by apply (clear_empty _ _ _ Ha)|].
      split; [|split; [done|split; [lia|done]]].
      symmetry. apply insert_id. rewrite Ha. destruct a; cbn in *; by subst.
    - destruct (is_pod T) eqn:Hp; [| destruct (data_on_stack T) eqn:Hs].
      + eexists. split; [by eapply clear_pod|]. cbn. split; [done|].
        split; [done|split; [lia|done]].
      + eexists. split; [by eapply clear_stack|]. cbn. split; [done|].
        rewrite destructions_app, constructions_app. cbn.
        split; [done|split; lia].
      + destruct (Hh) as [_ Hdat]. rewrite Hs in Hdat.
        destruct Hdat as (p & Hdp & _).
        eexists. split; [by eapply clear_heap|]. cbn. split; [done|].
        rewrite destructions_app, constructions_app. cbn.
        split; [|split; lia].
        intros q Hq. apply lookup_delete_ne. intros <-. apply Hq.
        split; [by eapply holds_not_empty | done]. }
  assert (∀ y b q, y ≠ this → anys w !! y = Some b → owns b q →
                   heap w' !! q = heap w !! q) as Hothers.
  { intros y b q Hy Hb Hq. apply Hheap. intros Hq'.
    destruct Hw as [_ Huniq]. apply Hy. by eapply Huniq. }
  exists w'. split; [done|]. split; [|done].
  apply (wf_world_store w w' this {| type_ := None; data_ := data_ a |});
    try done.
  - apply emptied_wf.
  - intros p y b Hp. by apply emptied_owns_nothing in Hp.
Qed.

(** X12: default construction and construction from a value keep the
    invariant of the store, whatever was at the address before. *)
Theorem construction_keeps_invariant w this T v :
  wf_world w →
  (∃ w', any_default this w = Ret tt w' ∧ wf_world w') ∧
  ((data_on_stack T = false → size_of T ≤ free_store w) →
   ∃ w', any_from this (fwd_value T v) w = Ret tt w' ∧ wf_world w').
Proof.
  intros Hw. split.
  - eexists. split; [done|]. by apply any_default_wf.
  - intros Hmem. cbn [any_from].
    destruct (any_from_value_Ret w this T v Hmem) as (w' & new & Hrun & _).
    exists w'. split; [done|]. by eapply any_from_value_wf.
Qed.

(** X13: copy construction keeps the invariant of the store: the copy
    refers to a block of its own. *)
Theorem copy_construct_keeps_invariant w A B a :
  wf_world w → A ≠ B → anys w !! A = Some a →
  (∀ T v, holds w a T v → data_on_stack T = false →
          size_of T ≤ free_store w) →
  ∃ w', any_copy B A w = Ret tt w' ∧ wf_world w'.
Proof.
  intros Hw Hne Ha Hmem. pose proof (not_eq_sym Hne) as Hne'.
  assert (∃ w', any_copy B A w = Ret tt w') as [w' Hrun].
  { destruct (proj1 Hw _ _ Ha) as [Ht | (T & v & Hh)].
    - eexists. by apply (any_copy_empty _ _ _ a).
    - destruct (data_on_stack T) eqn:Hs.
      + eexists. by apply (any_copy_stack _ _ _ a T v).
      + eexists. apply (any_copy_heap _ _ _ a T v); eauto. }
  exists w'. split; [done|]. by eapply any_copy_wf.
Qed.

(** X14: move construction keeps the invariant of the store: the block of
    the source has one owner before and one owner after. *)
Theorem move_construct_keeps_invariant w A B a :
  wf_world w → A ≠ B → anys w !! A = Some a →
  ∃ w', any_move B A w = Ret tt w' ∧ wf_world w'.
Proof.
  intros Hw Hne Ha. eexists. split; [by apply any_move_eq|].
  by apply any_move_wf.
Qed.

(** X15: [swap] keeps the invariant of the store. *)
Theorem swap_keeps_invariant w A B a b :
  wf_world w → anys w !! A = Some a → anys w !! B = Some b →
  ∃ w', swap A B w = Ret tt w' ∧ wf_world w'.
Proof.
  intros Hw Ha Hb. eexists. split; [by apply swap_eq|]. by apply swap_wf.
Qed.

(** X16: in a well-formed store [clear] and the destructor never meet a
    dangling or foreign block: they return normally and keep the invariant;
    after [clear] the container is empty, after the destructor it is gone,
    and every other container still holds what it held. *)
Theorem clear_and_destroy_keep_invariant w this a :
  wf_world w → anys w !! this = Some a →
  (∃ w', clear this w = Ret tt w' ∧ wf_world w' ∧
         empty this w' = Ret true w' ∧
         ∀ y b T v, y ≠ this → anys w !! y = Some b → holds w b T v →
                    anys w' !! y = Some b ∧ holds w' b T v) ∧
  (∃ w', any_dtor this w = Ret tt w' ∧ wf_world w' ∧
         anys w' !! this = None ∧
         ∀ y b T v, y ≠ this → anys w !! y = Some b → holds w b T v →
                    anys w' !! y = Some b ∧ holds w' b T v).
Proof.
  intros Hw Ha.
  destruct (clear_wf_world _ _ _ Hw Ha)
    as (wc & Hrun & Hwc & Hanys & Hheap & _).
  assert (∀ y b T v, y ≠ this → anys w !! y = Some b → holds w b T v →
            anys wc !! y = Some b ∧ holds wc b T v) as Hkeep.
  { intros y b T v Hy Hb Hh. split.
    - rewrite Hanys. by rewrite lookup_insert_ne.
    - apply (holds_heap w); [done|]. intros p o Hp Hlive.
      rewrite (Hheap y b p); [done..|].
      split; [by eapply holds_not_empty | done]. }
  split.
  - exists wc. split; [done|]. split; [done|]. split; [|done].
    rewrite (empty_eq _ _ {| type_ := None; data_ := data_ a |}); [done|].
    rewrite Hanys. apply lookup_insert_eq.
  - eexists. split; [by apply any_dtor_eq|]. cbn.
    split; [by eapply (wf_world_delete wc _ this)|].
    split; [apply lookup_delete_eq|].
    intros y b T v Hy Hb Hh. destruct (Hkeep _ _ _ _ Hy Hb Hh) as [Hb' Hh'].
    split; [by rewrite lookup_delete_ne|]. by apply (holds_heap wc).
Qed.

(** ** Assignment *)

(** The common tail of the assignment operators in a well-formed store. *)
Lemma install_temporary_wf wc tmp this new old :
  wf_world wc → tmp ≠ this →
  anys wc !! tmp = Some new → anys wc !! this = Some old →
  ∃ w' wd, (swap tmp this;; any_dtor tmp;; mret this) wc = Ret this w' ∧
        clear this wc = Ret tt wd ∧
        heap w' = heap wd ∧ trace w' = trace wd ∧
        free_store w' = free_store wd ∧
        wf_world w' ∧
        anys w' = <[this := new]> (delete tmp (anys wc)) ∧
        (∀ y b q, y ≠ this → anys wc !! y = Some b → owns b q →
                  heap w' !! q = heap wc !! q) ∧
        (destructions (trace w') ≤ destructions (trace wc) + 1)%nat ∧
        constructions (trace w') = constructions (trace wc).
Proof.
  intros Hw Hne Hnew Hold.
  destruct (clear_wf_world _ _ _ Hw Hold)
    as (wd & Hclear & Hwd & Hanys & Hheap & Hdes & Hcon).
  pose proof (install_temporary wc tmp this new old wd Hne Hnew Hold Hclear)
    as Hrun.
  eexists _, wd. split; [exact Hrun|]. cbn.
  split; [done|]. do 3 (split; [done|]).
  split; [|split; [done|split; [done|done]]].
  set (u := {| anys := delete tmp (anys wd); heap := heap wd;
               free_store := free_store wd; trace := trace wd |}).
  assert (wf_world u) as Hu by by apply (wf_world_delete wd u tmp).
  eapply (wf_world_store u _ this new).
  - done.
  - cbn. rewrite Hanys. store_ext.
  - done.
  - apply (wf_any_heap wc); [by eapply (proj1 Hw)|].
    intros p Hp. by apply (Hheap tmp new).
  - intros p y b Hp Hy. cbn. rewrite Hanys.
    rewrite lookup_delete. case_decide; [done|].
    rewrite lookup_insert_ne by done.
    intros Hb Hq. destruct Hw as [_ Huniq].
    assert (tmp = y) by by eapply Huniq. done.
Qed.

Lemma assignment_wf (ctor : addr → M unit) w this new old wc :
  ctor (fresh (dom (anys w))) w = Ret tt wc →
  wf_world wc →
  anys wc !! fresh (dom (anys w)) = Some new →
  anys wc !! this = Some old →
  fresh (dom (anys w)) ≠ this →
  ∃ w' wd,
    noexcept (tmp ← temporary;
              ctor tmp;; swap tmp this;; any_dtor tmp;; mret this) w =
      Ret this w' ∧
    clear this wc = Ret tt wd ∧
    heap w' = heap wd ∧ trace w' = trace wd ∧ free_store w' = free_store wd ∧
    wf_world w' ∧
    anys w' = <[this := new]> (delete (fresh (dom (anys w))) (anys wc)) ∧
    (∀ y b q, y ≠ this → anys wc !! y = Some b → owns b q →
              heap w' !! q = heap wc !! q) ∧
    (destructions (trace w') ≤ destructions (trace wc) + 1)%nat ∧
    constructions (trace w') = constructions (trace wc).
Proof.
  intros Hctor Hwc Hnew Hold Hne.
  destruct (install_temporary_wf _ _ _ _ _ Hwc Hne Hnew Hold)
    as (w' & wd & Hrun & Hrest).
  exists w', wd. split; [|done]. apply noexcept_Ret.
  unfold temporary. unfold mbind at 1, M_bind at 1.
  by rewrite (bind_Ret _ _ _ _ _ Hctor).
Qed.

Lemma holds_ext w u a T v :
  holds w a T v → (∀ q o, heap w !! q = Some o → heap u !! q = Some o) →
  holds u a T v.
Proof. intros Hh Hext. apply (holds_heap w); eauto. Qed.

Lemma owns_of_holds w a T v p : holds w a T v → data_ a = pheap p → owns a p.
Proof. intros Hh Hp. split; [by eapply holds_not_empty | done]. Qed.

(** X17: [a = v] in a well-formed store returns normally when the
    allocator can supply the new payload: afterwards [a] yields [v] to
    [get<T>()], every other container still holds what it held, the
    invariant is kept, exactly one payload constructor ran and at most one
    destructor; when the old content was of a type that is not POD its
    destructor ran exactly once. *)
Theorem assign_value_replaces w this old T v :
  wf_world w → anys w !! this = Some old →
  (data_on_stack T = false → size_of T ≤ free_store w) →
  ∃ w', assign_value this T v w = Ret this w' ∧
        read T this w' = Ret v w' ∧
        (∀ y b S v', y ≠ this → anys w !! y = Some b → holds w b S v' →
                     anys w' !! y = Some b ∧ holds w' b S v') ∧
        wf_world w' ∧
        constructions (trace w') = (constructions (trace w) + 1)%nat ∧
        (destructions (trace w') ≤ destructions (trace w) + 1)%nat ∧
        (∀ S v', holds w old S v' → is_pod S = false →
                 destructions (trace w') = (destructions (trace w) + 1)%nat).
Proof.
  intros Hw Hold Hmem.
  pose proof (temporary_ne _ _ _ Hold) as Hne.
  pose proof (temporary_fresh w) as Hfresh.
  set (tmp := fresh (dom (anys w))) in *.
  destruct (any_from_value_Ret w tmp T v Hmem)
    as (wc & new & Hctor & Hanys & Hnew & Hnewfresh & Hext & Hdc & _).
  assert (constructions (trace wc) = (constructions (trace w) + 1)%nat) as Hcc.
  { destruct (data_on_stack T) eqn:Hs.
    - rewrite (any_from_value_stack _ _ _ v Hs) in Hctor.
      injection Hctor as <-. cbn. rewrite constructions_app. cbn. lia.
    - rewrite (any_from_value_heap _ _ _ v Hs (Hmem eq_refl)) in Hctor.
      injection Hctor as <-. cbn. rewrite constructions_app. cbn. lia. }
  pose proof (any_from_value_wf _ _ _ _ _ Hw Hctor) as Hwc.
  assert (anys wc !! tmp = Some new) as Htmp
    by (rewrite Hanys; apply lookup_insert_eq).
  assert (anys wc !! this = Some old) as Hold'
    by (rewrite Hanys; by rewrite lookup_insert_ne).
  destruct (assignment_wf (λ tmp, any_from_value tmp T v) w this new old wc
              Hctor Hwc Htmp Hold' Hne)
    as (w' & wd & Hrun & Hclear & Hheap & Htrace & _ & Hw' & Hanys' & Hkeep
        & Hdes & Hcon).
  assert (anys w' !! this = Some new) as Hthis
    by (rewrite Hanys'; apply lookup_insert_eq).
  exists w'. split; [exact Hrun|].
  split.
  { apply (read_holds _ _ new); [done|].
    apply (holds_heap wc); [done|]. intros p o Hp Hlive.
    rewrite (Hkeep tmp new p); [done|done|done|by eapply owns_of_holds]. }
  split.
  { intros y b S v' Hy Hb Hh.
    assert (y ≠ tmp) as Hy' by congruence.
    assert (anys wc !! y = Some b) as Hb'
      by (rewrite Hanys; by rewrite lookup_insert_ne).
    split.
    - rewrite Hanys', lookup_insert_ne, lookup_delete_ne by done. done.
    - apply (holds_heap wc); [by eapply holds_ext|]. intros p o Hp Hlive.
      rewrite (Hkeep y b p); [done|done|done|].
      eapply owns_of_holds; [|done]. by eapply holds_ext. }
  split; [done|]. split; [lia|]. split; [lia|].
  intros S v' Hh Hpod.
  assert (holds wc old S v') as Hh' by by eapply holds_ext.
  rewrite Htrace.
  destruct (data_on_stack S) eqn:Hs.
  - rewrite (clear_stack _ _ _ _ _ Hold' Hh' Hpod Hs) in Hclear.
    injection Hclear as <-. cbn. rewrite destructions_app. cbn. lia.
  - pose proof Hh' as [Hty Hd]. rewrite Hs in Hd.
    destruct Hd as (p & Hp & Hlive).
    rewrite (clear_heap _ _ _ _ _ p Hold' Hh' Hpod Hs Hp) in Hclear.
    injection Hclear as <-. cbn. rewrite destructions_app. cbn. lia.
Qed.

(** X18: [a = std::move(b)] for two containers of a well-formed store
    returns normally: [a] receives the container value of [b], raw storage
    included, so it yields what [b] held; [b] is left empty; no payload
    constructor runs and at most one destructor, the one of the old content
    of [a]; the invariant is kept. *)
Theorem assign_move_transfers w this other old b :
  wf_world w → this ≠ other →
  anys w !! this = Some old → anys w !! other = Some b →
  ∃ w', assign_move this other w = Ret this w' ∧
        anys w' !! this = Some b ∧
        anys w' !! other = Some {| type_ := None; data_ := data_ b |} ∧
        (∀ T v, holds w b T v → read T this w' = Ret v w') ∧
        wf_world w' ∧
        constructions (trace w') = constructions (trace w) ∧
        (destructions (trace w') ≤ destructions (trace w) + 1)%nat.
Proof.
  intros Hw Hne Hold Hb.
  pose proof (temporary_ne _ _ _ Hold) as Hne1.
  pose proof (temporary_ne _ _ _ Hb) as Hne2.
  pose proof (temporary_fresh w) as Hfresh.
  set (tmp := fresh (dom (anys w))) in *.
  pose proof (any_move_eq w other tmp b (not_eq_sym Hne2) Hb) as Hctor.
  pose proof (any_move_wf w other tmp b Hw (not_eq_sym Hne2) Hb) as Hwc.
  match type of Hctor with _ = Ret _ ?x => set (wc := x) in * end.
  assert (anys wc !! this = Some old) as Hold'
    by (cbn; by rewrite !lookup_insert_ne).
  assert (anys wc !! tmp = Some b) as Htmp.
  { cbn. rewrite lookup_insert_ne by done. apply lookup_insert_eq. }
  destruct (assignment_wf (λ tmp, any_move tmp other) w this b old wc
              Hctor Hwc Htmp Hold' Hne1)
    as (w' & wd & Hrun & Hclear & Hheap & Htrace & _ & Hw' & Hanys' & Hkeep
        & Hdes & Hcon).
  assert (anys w' !! this = Some b) as Hthis
    by (rewrite Hanys'; apply lookup_insert_eq).
  exists w'. split; [exact Hrun|]. split; [done|].
  split.
  { rewrite Hanys', lookup_insert_ne, lookup_delete_ne by done.
    apply lookup_insert_eq. }
  split.
  { intros T v Hh. apply (read_holds _ _ b); [done|].
    apply (holds_heap wc); [by apply (holds_heap w)|]. intros p o Hp Hlive.
    rewrite (Hkeep tmp b p); [done|done|done|by eapply owns_of_holds]. }
  split; [done|]. split; [exact Hcon | exact Hdes].
Qed.

Lemma any_copy_Ret w this other b T v :
  anys w !! other = Some b → this ≠ other → holds w b T v →
  (data_on_stack T = false → size_of T ≤ free_store w) →
  ∃ wc new, any_copy this other w = Ret tt wc ∧
            anys wc = <[this := new]> (anys w) ∧ holds wc new T v ∧
            (∀ q o, heap w !! q = Some o → heap wc !! q = Some o) ∧
            constructions (trace wc) = (constructions (trace w) + 1)%nat ∧
            destructions (trace wc) = destructions (trace w).
Proof.
  intros Hb Hne Hh Hmem. destruct (data_on_stack T) eqn:Hs.
  - do 2 eexists. split; [by eapply any_copy_stack|]. cbn.
    rewrite constructions_app, destructions_app. cbn.
    split; [done|]. split; [split; [done|]; by rewrite Hs|].
    split; [done|]. lia.
  - pose proof (fresh_block_free w) as Hfresh.
    do 2 eexists. split; [eapply any_copy_heap; eauto|]. cbn.
    rewrite constructions_app, destructions_app. cbn.
    split; [done|]. split.
    { split; [done|]. cbn. rewrite Hs. eexists. split; [done|].
      apply lookup_insert_eq. }
    split; [|lia].
    intros q o Hq. rewrite lookup_insert_ne; [done|]. congruence.
Qed.

(** X19: [a = b] in a well-formed store, for a source that holds [v],
    returns normally when the allocator can supply the copy: afterwards [a]
    yields [v] to [get<T>()], a distinct source is unchanged and still
    yields [v], the invariant is kept, exactly one payload constructor ran
    and at most one destructor.  The source may be [a] itself. *)
Theorem assign_copy_copies w this other old b T v :
  wf_world w → anys w !! this = Some old → anys w !! other = Some b →
  holds w b T v →
  (data_on_stack T = false → size_of T ≤ free_store w) →
  ∃ w', assign_copy this other w = Ret this w' ∧
        read T this w' = Ret v w' ∧
        (this ≠ other →
           anys w' !! other = Some b ∧ read T other w' = Ret v w') ∧
        wf_world w' ∧
        constructions (trace w') = (constructions (trace w) + 1)%nat ∧
        (destructions (trace w') ≤ destructions (trace w) + 1)%nat.
Proof.
  intros Hw Hold Hb Hh Hmem.
  pose proof (temporary_ne _ _ _ Hold) as Hne1.
  pose proof (temporary_ne _ _ _ Hb) as Hne2.
  pose proof (temporary_fresh w) as Hfresh.
  set (tmp := fresh (dom (anys w))) in *.
  destruct (any_copy_Ret w tmp other b T v Hb Hne2 Hh Hmem)
    as (wc & new & Hctor & Hanys & Hnew & Hext & Hcc & Hdc).
  pose proof (any_copy_wf _ _ _ _ _ Hw Hne2 Hb Hctor) as Hwc.
  assert (anys wc !! tmp = Some new) as Htmp
    by (rewrite Hanys; apply lookup_insert_eq).
  assert (anys wc !! this = Some old) as Hold'
    by (rewrite Hanys; by rewrite lookup_insert_ne).
  destruct (assignment_wf (λ tmp, any_copy tmp other) w this new old wc
              Hctor Hwc Htmp Hold' Hne1)
    as (w' & wd & Hrun & Hclear & Hheap & Htrace & _ & Hw' & Hanys' & Hkeep
        & Hdes & Hcon).
  assert (anys w' !! this = Some new) as Hthis
    by (rewrite Hanys'; apply lookup_insert_eq).
  exists w'. split; [exact Hrun|].
  split.
  { apply (read_holds _ _ new); [done|].
    apply (holds_heap wc); [done|]. intros p o Hp Hlive.
    rewrite (Hkeep tmp new p); [done|done|done|by eapply owns_of_holds]. }
  split.
  { intros Hne.
    assert (anys wc !! other = Some b) as Hb'
      by (rewrite Hanys; by rewrite lookup_insert_ne).
    assert (anys w' !! other = Some b) as Hother.
    { rewrite Hanys', lookup_insert_ne, lookup_delete_ne by done. done. }
    split; [done|]. apply (read_holds _ _ b); [done|].
    apply (holds_heap wc); [by eapply holds_ext|]. intros p o Hp Hlive.
    rewrite (Hkeep other b p); [done|by apply not_eq_sym|done|].
    eapply owns_of_holds; [|done]. by eapply holds_ext. }
  split; [done|]. split; lia.
Qed.

(** X20: [a = b] in a well-formed store, for an empty source, returns
    normally and leaves [a] empty.  No payload is constructed, and the old
    content of [a] is cleared: the heap, the free store and the trace are
    exactly the ones a [clear()] of [a] leaves, so when the old content was
    of a type that is not POD its destructor ran exactly once and its heap
    block, if it had one, was released.  The invariant is kept. *)
Theorem assign_copy_from_empty w this other old b :
  wf_world w → anys w !! this = Some old → anys w !! other = Some b →
  type_ b = None →
  ∃ w' wd, assign_copy this other w = Ret this w' ∧
        empty this w' = Ret true w' ∧
        clear this w = Ret tt wd ∧
        heap w' = heap wd ∧ free_store w' = free_store wd ∧
        trace w' = trace wd ∧
        wf_world w' ∧
        constructions (trace w') = constructions (trace w) ∧
        (destructions (trace w') ≤ destructions (trace w) + 1)%nat ∧
        (∀ S v', holds w old S v' → is_pod S = false →
           destructions (trace w') = (destructions (trace w) + 1)%nat ∧
           ∀ p, data_ old = pheap p →
                heap w' !! p = None ∧
                releases (trace w') = (releases (trace w) + 1)%nat).
Proof.
  intros Hw Hold Hb Ht.
  pose proof (temporary_ne _ _ _ Hold) as Hne1.
  pose proof (temporary_ne _ _ _ Hb) as Hne2.
  set (tmp := fresh (dom (anys w))) in *.
  pose proof (any_copy_empty w tmp other b Hb Hne2 Ht) as Hctor.
  pose proof (any_copy_wf _ _ _ _ _ Hw Hne2 Hb Hctor) as Hwc.
  match type of Hctor with _ = Ret _ ?x => set (wc := x) in * end.
  assert (anys wc !! tmp = Some {| type_ := None; data_ := Indeterminate |})
    as Htmp by apply lookup_insert_eq.
  assert (anys wc !! this = Some old) as Hold'
    by (cbn; by rewrite lookup_insert_ne).
  destruct (assignment_wf (λ tmp, any_copy tmp other) w this _ old wc
              Hctor Hwc Htmp Hold' Hne1)
    as (w' & wd' & Hrun & Hclear & Hheap & Htrace & Hfree & Hw' & Hanys'
        & Hkeep & Hdes & Hcon).
  pose proof (clear_frame wc w this this old wd' Hold' Hold eq_refl eq_refl
                eq_refl Hclear) as Hclearw.
  match type of Hclearw with _ = Ret _ ?x => set (wd := x) in * end.
  exists w', wd. split; [exact Hrun|].
  split.
  { rewrite (empty_eq _ _ {| type_ := None; data_ := Indeterminate |});
      [done|]. rewrite Hanys'. apply lookup_insert_eq. }
  split; [exact Hclearw|]. do 3 (split; [done|]).
  split; [done|]. split; [exact Hcon|]. split; [exact Hdes|].
  intros S v' Hh Hpod. rewrite Hheap, Htrace.
  destruct (data_on_stack S) eqn:Hs.
  - pose proof (clear_stack _ _ _ _ _ Hold Hh Hpod Hs) as Hc.
    rewrite Hc in Hclearw.
    pose proof (f_equal (λ o, trace (world_of o)) Hclearw) as Etrace.
    cbn in Etrace.
    rewrite <- Etrace, destructions_app. cbn. split; [lia|].
    intros p Hp. destruct Hh as [_ Hd]. rewrite Hs in Hd. congruence.
  - pose proof Hh as [_ Hd]. rewrite Hs in Hd. destruct Hd as (p & Hp & Hlive).
    pose proof (clear_heap _ _ _ _ _ p Hold Hh Hpod Hs Hp) as Hc.
    rewrite Hc in Hclearw.
    pose proof (f_equal (λ o, trace (world_of o)) Hclearw) as Etrace.
    pose proof (f_equal (λ o, heap (world_of o)) Hclearw) as Eheap.
    cbn in Etrace, Eheap.
    rewrite <- Etrace, <- Eheap, destructions_app, releases_app. cbn.
    split; [lia|].
    intros q Hq. assert (q = p) as -> by congruence.
    split; [apply lookup_delete_eq | lia].
Qed.

(** X21: [a = std::move(a)] changes nothing at all: the store, the heap,
    the free store and the trace are the ones it started from. *)
Theorem self_move_assignment_is_identity w this a :
  anys w !! this = Some a →
  assign_move this this w = Ret this w.
Proof. intros Ha. exact (self_assign_move _ _ _ Ha). Qed.

(** X22: when the allocator cannot supply the new payload, [a = v] and
    [a = b] do not throw: [std::terminate] is called, and at that point the
    target still has its old container value and the heap, the free store
    and the trace are untouched. *)
Theorem assignment_out_of_memory_terminates w this other old b T v :
  anys w !! this = Some old →
  data_on_stack T = false → free_store w < size_of T →
  (∃ w', assign_value this T v w = Raise Terminate w' ∧
         anys w' !! this = Some old ∧ heap w' = heap w ∧
         free_store w' = free_store w ∧ trace w' = trace w) ∧
  (anys w !! other = Some b → holds w b T v →
   ∃ w', assign_copy this other w = Raise Terminate w' ∧
         anys w' !! this = Some old ∧ heap w' = heap w ∧
         free_store w' = free_store w ∧ trace w' = trace w).
Proof.
  intros Hold Hs Hm. split.
  - by apply assign_value_throws.
  - intros Hb Hh. by eapply assign_copy_throws.
Qed.

(** X23: a container handed to the constructor template, as a non-const
    lvalue or as a const rvalue, is copied, neither wrapped nor moved from:
    when it holds [v], the new container holds [v] under the identity token
    of the payload type, behind a reference of its own, and the source
    still holds [v]. *)
Theorem construct_from_container_unwraps w A B a T v rvalue :
  A ≠ B → anys w !! A = Some a → holds w a T v →
  (data_on_stack T = false → size_of T ≤ free_store w) →
  ∃ w' b, any_from B (fwd_any A rvalue) w = Ret tt w' ∧
          anys w' !! B = Some b ∧ holds w' b T v ∧
          (∀ p, data_ a = pheap p → data_ b ≠ pheap p) ∧
          type B w' = Ret (typeid T) w' ∧
          read T B w' = Ret v w' ∧
          anys w' !! A = Some a ∧ read T A w' = Ret v w'.
Proof.
  intros Hne Ha Hh Hmem. pose proof (not_eq_sym Hne) as Hne'.
  change (any_from B (fwd_any A rvalue)) with (any_copy B A).
  assert (∃ w' b, any_copy B A w = Ret tt w' ∧
            anys w' = <[B := b]> (anys w) ∧ holds w' b T v ∧
            (∀ q o, heap w !! q = Some o → heap w' !! q = Some o) ∧
            (∀ p, data_ a = pheap p → data_ b ≠ pheap p))
    as (w' & b & Hrun & Hanys & Hnew & Hext & Hdiff).
  { destruct (data_on_stack T) eqn:Hs.
    - do 2 eexists. split; [by apply (any_copy_stack _ _ _ a T v)|]. cbn.
      split; [done|]. split; [split; [done|]; by rewrite Hs|]. done.
    - pose proof (fresh_block_free w) as Hfresh.
      do 2 eexists. split; [apply (any_copy_heap _ _ _ a T v); auto|]. cbn.
      split; [done|]. split.
      { split; [done|]. cbn. rewrite Hs. eexists. split; [done|].
        apply lookup_insert_eq. }
      split.
      { intros q o Hq. rewrite lookup_insert_ne; [done|]. congruence. }
      intros p Hp [= <-].
      destruct (holds_owns_live _ _ _ _ _ Hh Hp) as [_ Hlive]. congruence. }
  assert (anys w' !! B = Some b) as HB
    by (rewrite Hanys; apply lookup_insert_eq).
  assert (anys w' !! A = Some a) as HA
    by (rewrite Hanys; by rewrite lookup_insert_ne).
  exists w', b. split; [exact Hrun|]. split; [done|]. split; [done|].
  split; [done|].
  split; [rewrite (type_eq _ _ _ HB); by destruct Hnew as [-> _]|].
  split; [by apply (read_holds _ _ b)|]. split; [done|].
  apply (read_holds _ _ a); [done|]. by eapply holds_ext.
Qed.

End Any.

Arguments Obj : clear implicits.
Arguments Data : clear implicits.
Arguments any : clear implicits.
Arguments Event : clear implicits.
Arguments World : clear implicits.
Arguments Outcome : clear implicits.
Arguments M : clear implicits.
Arguments Ret {Val A} a w.
Arguments Raise {Val A} e w.

(** * Concrete instances on an LP64 machine *)

Local Open Scope Z_scope.

(** Nothing constructed yet, 48 bytes of free store. *)
Definition w0 : World Z :=
  {| anys := ∅; heap := ∅; free_store := 48; trace := [] |}.

(** After [any a;] at address 1. *)
Definition w_void : World Z :=
  {| anys := {[ 1%positive := {| type_ := None; data_ := Indeterminate |} ]};
     heap := ∅; free_store := 48; trace := [] |}.

(** After [any a = std::string(..)] (value 42) at address 1. *)
Definition w_string : World Z :=
  {| anys := {[ 1%positive := {| type_ := Some (TypeInfo_get_type 8 String);
                                 data_ := pheap 1 |} ]};
     heap := {[ 1%positive := {| obj_type := String; obj_val := 42 |} ]};
     free_store := 16;
     trace := [EvNew 1; EvConstruct String 42] |}.

(** After [any a = Big{..}] (value 42) at address 1. *)
Definition w_big : World Z :=
  {| anys := {[ 1%positive := {| type_ := Some (TypeInfo_get_type 8 Big);
                                 data_ := pheap 1 |} ]};
     heap := {[ 1%positive := {| obj_type := Big; obj_val := 42 |} ]};
     free_store := 16;
     trace := [EvNew 1; EvConstruct Big 42] |}.

(** [any a = std::string(..), b = 7] at addresses 1 and 2. *)
Definition w_two : World Z :=
  {| anys := {[ 1%positive := {| type_ := Some (TypeInfo_get_type 8 String);
                                 data_ := pheap 1 |};
                2%positive := {| type_ := Some (TypeInfo_get_type 8 Int);
                                 data_ := stack {| obj_type := Int; obj_val := 7 |} |} ]};
     heap := {[ 1%positive := {| obj_type := String; obj_val := 42 |} ]};
     free_store := 16;
     trace := [EvNew 1; EvConstruct String 42; EvConstruct Int 7] |}.

Example w_void_built : any_default 1 w0 = Ret tt w_void.
Proof. vm_compute. reflexivity. Qed.

Example w_string_built :
  any_from 8 1 (fwd_value String 42) w0 = Ret tt w_string.
Proof. vm_compute. reflexivity. Qed.

Example w_big_built :
  any_from 8 1 (fwd_value Big 42) w0 = Ret tt w_big.
Proof. vm_compute. reflexivity. Qed.

Example w_two_built :
  (any_from 8 1 (fwd_value String 42);; any_from 8 2 (fwd_value Int 7)) w0 = Ret tt w_two.
Proof. vm_compute. reflexivity. Qed.

Lemma holds_w_string :
  holds 8 w_string {| type_ := Some (TypeInfo_get_type 8 String);
                      data_ := pheap 1 |} String 42.
Proof. split; [reflexivity|]. cbn. exists 1%positive. by vm_compute. Qed.

(** C1 at [Big], a POD type of four machine words: it takes the heap
    strategy, yet its descriptor has no destroy operation, and after
    construction both [clear()] and the destructor leave its block live and
    release nothing. *)
Theorem heap_pod_never_released :
  data_on_stack 8 Big = false ∧
  destroy (TypeInfo_get_type 8 Big) = None ∧
  any_from 8 1 (fwd_value Big 42) w0 = Ret tt w_big ∧
  anys w_big !! 1%positive = Some {| type_ := Some (TypeInfo_get_type 8 Big);
                                     data_ := pheap 1 |} ∧
  (∃ w', clear 1 w_big = Ret tt w' ∧ empty 1 w' = Ret true w' ∧
         heap w' !! 1%positive = Some {| obj_type := Big; obj_val := 42 |} ∧
         releases (trace w') = 0%nat) ∧
  (∃ w', any_dtor 1 w_big = Ret tt w' ∧ anys w' = ∅ ∧
         heap w' !! 1%positive = Some {| obj_type := Big; obj_val := 42 |} ∧
         releases (trace w') = 0%nat).
Proof.
  split; [reflexivity|]. split; [reflexivity|].
  split; [vm_compute; reflexivity|]. split; [vm_compute; reflexivity|].
  split.
  - eexists. split; [vm_compute; reflexivity|]. by vm_compute.
  - eexists. split; [vm_compute; reflexivity|]. by vm_compute.
Qed.

(** C5 at a target that holds a [Big]: [a = 7] returns with [a] holding the
    [int], but the block of the previous content is still live, no
    container refers to it any more, and nothing was released. *)
Theorem assignment_leaks_heap_pod :
  ∃ w', assign_value 8 1 Int 7 w_big = Ret 1%positive w' ∧
        anys w' = {[ 1%positive :=
                       {| type_ := Some (TypeInfo_get_type 8 Int);
                          data_ := stack {| obj_type := Int; obj_val := 7 |} |} ]} ∧
        heap w' !! 1%positive = Some {| obj_type := Big; obj_val := 42 |} ∧
        destructions (trace w') = 0%nat ∧ releases (trace w') = 0%nat.
Proof. eexists. split; [vm_compute; reflexivity|]. by vm_compute. Qed.


(** C8 fails at [Counter]: it is trivially destructible, yet its descriptor
    has a destroy operation. *)
Lemma trivially_destructible_has_destroy :
  cxx_type_ok Counter ∧
  ¬ (destroy (TypeInfo_get_type 8 Counter) = None ↔
     is_trivially_destructible Counter = true).
Proof.
  split; [done|]. intros [_ H]. specialize (H eq_refl). discriminate H.
Qed.

(** ** Instances of the theorems *)

Lemma move_construct_relocates_witness :
  ∃ w', any_move 2 1 w_string = Ret tt w' ∧
        anys w' !! 2%positive =
          Some {| type_ := Some (TypeInfo_get_type 8 String); data_ := pheap 1 |} ∧
        empty 1 w' = Ret true w' ∧ trace w' = trace w_string.
Proof.
  destruct (move_construct_relocates 8 w_string 1 2
              {| type_ := Some (TypeInfo_get_type 8 String); data_ := pheap 1 |})
    as (w' & H1 & H2 & _ & H4 & _ & _ & _ & _ & H9).
  - discriminate.
  - vm_compute. reflexivity.
  - by exists w'.
Defined.

Lemma get_fails_exactly_when_witness :
  get 8 Int 1 w_string =
    Raise (Fatal "The stored type mismatch stored=std::string requested=int")
          w_string.
Proof.
  destruct (get_fails_exactly_when 8 w_string 1
              {| type_ := Some (TypeInfo_get_type 8 String); data_ := pheap 1 |}
              Int) as (_ & H & _).
  - vm_compute. reflexivity.
  - right. exists String, 42. exact holds_w_string.
  - apply (H String 42); [exact holds_w_string | discriminate].
Defined.

Lemma clear_idempotent_witness :
  ∃ w1, clear 1 w_string = Ret tt w1 ∧ empty 1 w1 = Ret true w1 ∧
        clear 1 w1 = Ret tt w1 ∧
        (destructions (trace w1) ≤ destructions (trace w_string) + 1)%nat ∧
        (releases (trace w1) ≤ releases (trace w_string) + 1)%nat.
Proof.
  apply (clear_idempotent 8 w_string 1
           {| type_ := Some (TypeInfo_get_type 8 String); data_ := pheap 1 |}).
  - vm_compute. reflexivity.
  - right. exists String, 42. exact holds_w_string.
Defined.

Lemma storage_strategy_witness :
  any_from 8 1 (fwd_value Int 7) w0 =
    Ret tt {| anys := <[1%positive :=
                          {| type_ := Some (TypeInfo_get_type 8 Int);
                             data_ := stack {| obj_type := Int; obj_val := 7 |} |}]>
                        (anys w0);
              heap := heap w0; free_store := free_store w0;
              trace := trace w0 ++ [EvConstruct Int 7] |} ∧
  (∃ w', any_from 8 1 (fwd_value String 42) w_string = Raise BadAlloc w' ∧
         heap w' = heap w_string ∧ trace w' = trace w_string) ∧
  heap w0 !! fresh (dom (heap w0)) = None.
Proof.
  destruct (storage_strategy 8 w0 1 Int 7) as (_ & Hstack & _ & _).
  destruct (storage_strategy 8 w_string 1 String 42) as (_ & _ & _ & Hoom).
  destruct (storage_strategy 8 w0 1 String 42) as (_ & _ & Hheap & _).
  split; [apply Hstack; reflexivity|].
  split; [apply Hoom; [reflexivity | vm_compute; reflexivity]|].
  apply (proj1 (Hheap eq_refl ltac:(vm_compute; discriminate))).
Defined.

Lemma destroy_absent_for_inline_pod_witness :
  destroy (TypeInfo_get_type 8 String) = Some (TypeInfo_destroy 8 String) ∧
  (destroy (TypeInfo_get_type 8 Int) = None ↔ is_pod Int = true).
Proof.
  split.
  - apply (destroy_absent_for_inline_pod 8 String). reflexivity.
  - apply (destroy_absent_for_inline_pod 8 Int). reflexivity.
Defined.

Lemma swap_exchanges_witness :
  ∃ w', swap 1 2 w_two = Ret tt w' ∧
        anys w' !! 1%positive =
          Some {| type_ := Some (TypeInfo_get_type 8 Int);
                  data_ := stack {| obj_type := Int; obj_val := 7 |} |} ∧
        anys w' !! 2%positive =
          Some {| type_ := Some (TypeInfo_get_type 8 String); data_ := pheap 1 |} ∧
        trace w' = trace w_two.
Proof.
  destruct (swap_exchanges 8 w_two 1 2
              {| type_ := Some (TypeInfo_get_type 8 String); data_ := pheap 1 |}
              {| type_ := Some (TypeInfo_get_type 8 Int);
                 data_ := stack {| obj_type := Int; obj_val := 7 |} |})
    as (w' & H1 & H2 & H3 & _ & _ & _ & _ & _ & _ & _ & _ & _ & H13).
  - vm_compute. reflexivity.
  - vm_compute. reflexivity.
  - by exists w'.
Defined.

Lemma moved_from_is_empty_witness :
  ∃ w', any_move 2 1 w_string = Ret tt w' ∧
        anys w' !! 1%positive = Some {| type_ := None; data_ := pheap 1 |} ∧
        empty 1 w' = Ret true w' ∧ type 1 w' = Ret typeid_void w' ∧
        clear 1 w' = Ret tt w'.
Proof.
  destruct (moved_from_is_empty 8 w_string 1 2 3
              {| type_ := Some (TypeInfo_get_type 8 String); data_ := pheap 1 |})
    as ((w' & H1 & H2 & H3 & H4 & _ & H6 & _) & _).
  - discriminate.
  - vm_compute. reflexivity.
  - by exists w'.
Defined.

(** ** Instances of the further properties *)

(** [any a = std::string(..), b = 7] at addresses 1 and 2, with room for
    two more strings. *)
Definition c_string : any Z :=
  {| type_ := Some (TypeInfo_get_type 8 String); data_ := pheap 1 |}.

Definition c_int : any Z :=
  {| type_ := Some (TypeInfo_get_type 8 Int);
     data_ := stack {| obj_type := Int; obj_val := 7 |} |}.

Definition w_room : World Z :=
  {| anys := {[ 1%positive := c_string; 2%positive := c_int ]};
     heap := {[ 1%positive := {| obj_type := String; obj_val := 42 |} ]};
     free_store := 64;
     trace := [EvNew 1; EvConstruct String 42; EvConstruct Int 7] |}.

Definition w_room0 : World Z :=
  {| anys := ∅; heap := ∅; free_store := 96; trace := [] |}.

Definition w_room1 : World Z :=
  {| anys := {[ 1%positive := c_string ]};
     heap := {[ 1%positive := {| obj_type := String; obj_val := 42 |} ]};
     free_store := 64;
     trace := [EvNew 1; EvConstruct String 42] |}.

Lemma wf_world_empty_store (h : gmap addr (Obj Z)) f t :
  wf_world 8 {| anys := ∅; heap := h; free_store := f; trace := t |}.
Proof.
  split; cbn.
  - intros x a Hx. by rewrite lookup_empty in Hx.
  - intros x y a b p Hx. by rewrite lookup_empty in Hx.
Qed.

Lemma wf_world_w_room1 : wf_world 8 w_room1.
Proof.
  apply (any_from_value_wf 8 w_room0 1 String 42).
  - apply wf_world_empty_store.
  - vm_compute. reflexivity.
Qed.

Lemma wf_world_w_room : wf_world 8 w_room.
Proof.
  apply (any_from_value_wf 8 w_room1 2 Int 7).
  - apply wf_world_w_room1.
  - vm_compute. reflexivity.
Qed.

Lemma wf_world_w_string : wf_world 8 w_string.
Proof.
  apply (any_from_value_wf 8 w0 1 String 42).
  - apply wf_world_empty_store.
  - vm_compute. reflexivity.
Qed.

Lemma holds_c_string : holds 8 w_room c_string String 42.
Proof. split; [reflexivity|]. cbn. exists 1%positive. by vm_compute. Qed.

Lemma holds_c_int : holds 8 w_room c_int Int 7.
Proof. split; [reflexivity|]. by vm_compute. Qed.

Lemma w_room_1 : anys w_room !! 1%positive = Some c_string.
Proof. vm_compute. reflexivity. Qed.

Lemma w_room_2 : anys w_room !! 2%positive = Some c_int.
Proof. vm_compute. reflexivity. Qed.

Lemma w_room_3 : anys w_room !! 3%positive = None.
Proof. vm_compute. reflexivity. Qed.

Lemma w_room_fits : data_on_stack 8 String = false →
  (size_of String ≤ free_store w_room)%N.
Proof. intros _. vm_compute. discriminate. Qed.

Lemma w_string_1 : anys w_string !! 1%positive = Some c_string.
Proof. vm_compute. reflexivity. Qed.

Lemma w_string_full : (free_store w_string < size_of String)%N.
Proof. vm_compute. reflexivity. Qed.

Lemma copy_construct_is_deep_witness :
  ∃ w' rA rB,
    any_copy 3 1 w_room = Ret tt w' ∧
    get 8 String 1 w' = Ret rA w' ∧ deref String rA w' = Ret 42 w' ∧
    get 8 String 3 w' = Ret rB w' ∧ deref String rB w' = Ret 42 w' ∧
    rA ≠ rB.
Proof.
  destruct (copy_construct_is_deep 8 w_room 1 3 c_string String 42)
    as (w' & rA & rB & H1 & H2 & H3 & H4 & H5 & H6 & _).
  - discriminate.
  - exact w_room_1.
  - exact holds_c_string.
  - exact w_room_fits.
  - by exists w', rA, rB.
Defined.

Lemma copy_of_empty_is_empty_witness :
  ∃ w', any_copy 2 1 w_void = Ret tt w' ∧ empty 2 w' = Ret true w' ∧
        trace w' = trace w_void.
Proof.
  destruct (copy_of_empty_is_empty w_void 1 2
              {| type_ := None; data_ := Indeterminate |})
    as (w' & H1 & H2 & _ & _ & _ & _ & H7).
  - discriminate.
  - vm_compute. reflexivity.
  - reflexivity.
  - by exists w'.
Defined.

Lemma copy_construct_out_of_memory_terminates_witness :
  ∃ w', any_copy 2 1 w_string = Raise Terminate w' ∧
        anys w' !! 1%positive = Some c_string ∧ heap w' = heap w_string.
Proof.
  destruct (copy_construct_out_of_memory_terminates 8 w_string 1 2 c_string
              String 42) as (w' & H1 & H2 & H3 & _).
  - discriminate.
  - exact w_string_1.
  - exact holds_w_string.
  - reflexivity.
  - exact w_string_full.
  - by exists w'.
Defined.

Lemma copy_survives_clear_witness :
  ∃ w' wa wb,
    any_copy 3 1 w_room = Ret tt w' ∧
    clear 1 w' = Ret tt wa ∧ read 8 String 3 wa = Ret 42 wa ∧
    clear 3 w' = Ret tt wb ∧ read 8 String 1 wb = Ret 42 wb.
Proof.
  apply (copy_survives_clear 8 w_room 1 3 c_string String 42).
  - discriminate.
  - exact w_room_1.
  - exact holds_c_string.
  - exact w_room_fits.
Defined.

Lemma type_void_iff_empty_witness :
  type 1 w_room = Ret typeid_void w_room ↔ empty 1 w_room = Ret true w_room.
Proof.
  apply (type_void_iff_empty 8 w_room 1 c_string).
  - exact w_room_1.
  - right. exists String, 42. exact holds_c_string.
Defined.

Lemma swap_twice_restores_witness :
  (swap 1 2;; swap 1 2) w_room = Ret tt w_room.
Proof.
  apply (swap_twice_restores w_room 1 2 c_string c_int).
  - exact w_room_1.
  - exact w_room_2.
Defined.

Lemma swap_symmetric_witness : swap 1 2 w_room = swap 2 1 w_room.
Proof.
  apply (swap_symmetric w_room 1 2 c_string c_int).
  - exact w_room_1.
  - exact w_room_2.
Defined.

Lemma move_relocates_reference_witness :
  ∃ w', any_move 3 2 w_room = Ret tt w' ∧
        get 8 Int 3 w' = Ret (RefStack 3) w' ∧
        deref Int (RefStack 3) w' = Ret 7 w'.
Proof.
  destruct (move_relocates_reference 8 w_room 2 3 c_int Int (RefStack 2))
    as (w' & H1 & H2 & H3).
  - discriminate.
  - exact w_room_2.
  - vm_compute. reflexivity.
  - exists w'. split; [exact H1|]. split; [exact H2|].
    apply (H3 7). vm_compute. reflexivity.
Defined.

Lemma move_then_destroy_both_once_witness :
  ∃ w', (any_move 3 1;; any_dtor 1;; any_dtor 3) w_room = Ret tt w' ∧
        destructions (trace w') = (destructions (trace w_room) + 1)%nat ∧
        heap w' !! 1%positive = None.
Proof.
  destruct (move_then_destroy_both_once 8 w_room 1 3 c_string String 42)
    as (w' & H1 & _ & H3 & _ & H5).
  - discriminate.
  - exact w_room_1.
  - exact holds_c_string.
  - reflexivity.
  - exists w'. split; [exact H1|]. split; [exact H3|]. by apply H5.
Defined.

Lemma construct_destroy_restores_witness :
  ∃ w', (any_from 8 3 (fwd_value String 5);; any_dtor 3) w_room = Ret tt w' ∧
        anys w' = anys w_room ∧ heap w' = heap w_room ∧
        free_store w' = free_store w_room.
Proof.
  destruct (construct_destroy_restores 8 w_room 3 String 5)
    as (w' & H1 & H2 & H3 & H4 & _).
  - exact w_room_3.
  - left. reflexivity.
  - exact w_room_fits.
  - by exists w'.
Defined.

Lemma construction_keeps_invariant_witness :
  ∃ w', any_from 8 3 (fwd_value String 5) w_room = Ret tt w' ∧
        wf_world 8 w'.
Proof.
  destruct (construction_keeps_invariant 8 w_room 3 String 5) as [_ H].
  - exact wf_world_w_room.
  - apply H. exact w_room_fits.
Defined.

Lemma move_construct_keeps_invariant_witness :
  ∃ w', any_move 3 1 w_room = Ret tt w' ∧ wf_world 8 w'.
Proof.
  apply (move_construct_keeps_invariant 8 w_room 1 3 c_string).
  - exact wf_world_w_room.
  - discriminate.
  - exact w_room_1.
Defined.

Lemma swap_keeps_invariant_witness :
  ∃ w', swap 1 2 w_room = Ret tt w' ∧ wf_world 8 w'.
Proof.
  apply (swap_keeps_invariant 8 w_room 1 2 c_string c_int).
  - exact wf_world_w_room.
  - exact w_room_1.
  - exact w_room_2.
Defined.

Lemma clear_and_destroy_keep_invariant_witness :
  (∃ w', clear 1 w_room = Ret tt w' ∧ wf_world 8 w' ∧
         empty 1 w' = Ret true w') ∧
  (∃ w', any_dtor 1 w_room = Ret tt w' ∧ wf_world 8 w' ∧
         anys w' !! 1%positive = None).
Proof.
  destruct (clear_and_destroy_keep_invariant 8 w_room 1 c_string)
    as [(w1 & H1 & H2 & H3 & _) (w2 & H4 & H5 & H6 & _)].
  - exact wf_world_w_room.
  - exact w_room_1.
  - split; [by exists w1 | by exists w2].
Defined.

Lemma assign_value_replaces_witness :
  ∃ w', assign_value 8 1 String 5 w_room = Ret 1%positive w' ∧
        read 8 String 1 w' = Ret 5 w' ∧ wf_world 8 w' ∧
        destructions (trace w') = (destructions (trace w_room) + 1)%nat.
Proof.
  destruct (assign_value_replaces 8 w_room 1 c_string String 5)
    as (w' & H1 & H2 & _ & H4 & _ & _ & H7).
  - exact wf_world_w_room.
  - exact w_room_1.
  - exact w_room_fits.
  - exists w'. split; [exact H1|]. split; [exact H2|]. split; [exact H4|].
    apply (H7 String 42); [exact holds_c_string | reflexivity].
Defined.

Lemma assign_move_transfers_witness :
  ∃ w', assign_move 2 1 w_room = Ret 2%positive w' ∧
        anys w' !! 2%positive = Some c_string ∧
        read 8 String 2 w' = Ret 42 w' ∧ wf_world 8 w'.
Proof.
  destruct (assign_move_transfers 8 w_room 2 1 c_int c_string)
    as (w' & H1 & H2 & _ & H4 & H5 & _).
  - exact wf_world_w_room.
  - discriminate.
  - exact w_room_2.
  - exact w_room_1.
  - exists w'. split; [exact H1|]. split; [exact H2|].
    split; [apply H4; exact holds_c_string | exact H5].
Defined.

Lemma assign_copy_copies_witness :
  ∃ w', assign_copy 2 1 w_room = Ret 2%positive w' ∧
        read 8 String 2 w' = Ret 42 w' ∧ read 8 String 1 w' = Ret 42 w' ∧
        wf_world 8 w'.
Proof.
  destruct (assign_copy_copies 8 w_room 2 1 c_int c_string String 42)
    as (w' & H1 & H2 & H3 & H4 & _).
  - exact wf_world_w_room.
  - exact w_room_2.
  - exact w_room_1.
  - exact holds_c_string.
  - exact w_room_fits.
  - exists w'. split; [exact H1|]. split; [exact H2|].
    split; [apply H3; discriminate | exact H4].
Defined.

Lemma self_move_assignment_is_identity_witness :
  assign_move 1 1 w_room = Ret 1%positive w_room.
Proof.
  apply (self_move_assignment_is_identity w_room 1 c_string). exact w_room_1.
Defined.

Lemma assignment_out_of_memory_terminates_witness :
  ∃ w', assign_value 8 1 String 5 w_string = Raise Terminate w' ∧
        anys w' !! 1%positive = Some c_string ∧ trace w' = trace w_string.
Proof.
  destruct (assignment_out_of_memory_terminates 8 w_string 1 1 c_string
              c_string String 5) as [(w' & H1 & H2 & _ & _ & H5) _].
  - exact w_string_1.
  - reflexivity.
  - exact w_string_full.
  - by exists w'.
Defined.

Lemma copy_construct_keeps_invariant_witness :
  ∃ w', any_copy 3 1 w_room = Ret tt w' ∧ wf_world 8 w'.
Proof.
  apply (copy_construct_keeps_invariant 8 w_room 1 3 c_string).
  - exact wf_world_w_room.
  - discriminate.
  - exact w_room_1.
  - intros T v Hh Hs.
    destruct (holds_unique 8 _ _ _ _ _ _ Hh holds_c_string) as [-> _].
    vm_compute. discriminate.
Defined.

(** [any a = std::string(..), b;] at addresses 1 and 2. *)
Definition w_room_e : World Z :=
  {| anys := {[ 1%positive := c_string;
                2%positive := {| type_ := None; data_ := Indeterminate |} ]};
     heap := {[ 1%positive := {| obj_type := String; obj_val := 42 |} ]};
     free_store := 64;
     trace := [EvNew 1; EvConstruct String 42] |}.

Lemma wf_world_w_room_e : wf_world 8 w_room_e.
Proof.
  assert (w_room_e =
          {| anys := <[2%positive := {| type_ := None; data_ := Indeterminate |}]>
                       (anys w_room1);
             heap := heap w_room1; free_store := free_store w_room1;
             trace := trace w_room1 |}) as -> by (vm_compute; reflexivity).
  apply any_default_wf, wf_world_w_room1.
Qed.

Lemma holds_c_string_e : holds 8 w_room_e c_string String 42.
Proof. split; [reflexivity|]. cbn. exists 1%positive. by vm_compute. Qed.

Lemma assign_copy_from_empty_witness :
  ∃ w', assign_copy 1 2 w_room_e = Ret 1%positive w' ∧
        empty 1 w' = Ret true w' ∧ wf_world 8 w' ∧
        heap w' !! 1%positive = None ∧
        destructions (trace w') = (destructions (trace w_room_e) + 1)%nat ∧
        releases (trace w') = (releases (trace w_room_e) + 1)%nat.
Proof.
  destruct (assign_copy_from_empty 8 w_room_e 1 2 c_string
              {| type_ := None; data_ := Indeterminate |})
    as (w' & wd & H1 & H2 & _ & _ & _ & _ & H7 & _ & _ & H10).
  - exact wf_world_w_room_e.
  - vm_compute. reflexivity.
  - vm_compute. reflexivity.
  - reflexivity.
  - destruct (H10 String 42 holds_c_string_e eq_refl) as [Hd Hp].
    destruct (Hp 1%positive eq_refl) as [Hgone Hrel].
    by exists w'.
Defined.

Lemma construct_from_container_unwraps_witness :
  ∃ w' b, any_from 8 3 (fwd_any 1 true) w_room = Ret tt w' ∧
          anys w' !! 3%positive = Some b ∧ data_ b ≠ data_ c_string ∧
          type 3 w' = Ret (typeid String) w' ∧
          read 8 String 3 w' = Ret 42 w' ∧
          anys w' !! 1%positive = Some c_string ∧
          read 8 String 1 w' = Ret 42 w'.
Proof.
  destruct (construct_from_container_unwraps 8 w_room 1 3 c_string String 42
              true)
    as (w' & b & H1 & H2 & _ & H4 & H5 & H6 & H7 & H8).
  - discriminate.
  - exact w_room_1.
  - exact holds_c_string.
  - exact w_room_fits.
  - exists w', b. repeat split; try done.
    intros Heq. by apply (H4 1%positive eq_refl).
Defined.

